(** * code_insight: call-graph construction and signature extraction

    A shallow embedding of [generate_call_graphs.py] and
    [extract_functions.py], and the properties of the specification that
    concern them.

    Conventions.
    - A Python [str] is a [string]; a [dict] read with [.items()] is the
      list of its items in insertion order; a [dict] used as a map and the
      node table of a [networkx.DiGraph] are [gmap]s; the edge table of a
      [DiGraph] is a [gset] of ordered pairs.
    - A syntax tree of the [ast] module is a rose tree: a node carries the
      attributes the scripts read and the list of its children in the order
      of [ast.iter_child_nodes]. *)

From Stdlib Require Import String Ascii ZArith List Lia Permutation.
From stdpp Require Import gmap strings list pretty.

(** ** Python string primitives *)

Module Py.

(** [s.startswith(p)] *)
Definition startswith (s p : string) : bool := String.prefix p s.

(** [s.split(sep)] for a separator of one character. *)
Fixpoint split (sep : ascii) (s : string) : list string :=
  match s with
  | EmptyString => [EmptyString]
  | String c s' =>
      if Ascii.eqb c sep then EmptyString :: split sep s'
      else match split sep s' with
           | [] => [String c EmptyString]
           | p :: ps => String c p :: ps
           end
  end.

(** [sep.join(l)] *)
Definition join (sep : string) (l : list string) : string := String.concat sep l.

(** [l[-1]] of a list of strings; [split] never returns the empty list, so
    the default is never used by the scripts. *)
Definition last_item (l : list string) : string := List.last l EmptyString.

(** [l[:-1]] *)
Definition but_last (l : list string) : list string := List.removelast l.

(** [s.replace(old, new)]: all occurrences, leftmost first, not
    overlapping.  [skip] counts the characters of a match still to drop. *)
Fixpoint replace_from (old new : string) (skip : nat) (s : string) : string :=
  match s with
  | EmptyString => EmptyString
  | String c s' =>
      match skip with
      | S k => replace_from old new k s'
      | O =>
          if String.prefix old s
          then new +:+ replace_from old new (String.length old - 1) s'
          else String c (replace_from old new 0 s')
      end
  end.

(** With an empty [old], [new] goes before every character and at the
    end. *)
Fixpoint intersperse_str (new s : string) : string :=
  match s with
  | EmptyString => new
  | String c s' => new +:+ String c (intersperse_str new s')
  end.

Definition replace (s old new : string) : string :=
  match old with
  | EmptyString => intersperse_str new s
  | _ => replace_from old new 0 s
  end.

(** [os.path.basename(p)] on a POSIX path: what follows the last slash. *)
Definition basename (p : string) : string := last_item (split "/" p).

End Py.

(** ** The directed graph of networkx, as far as the script uses it *)

Record DiGraph := mkDiGraph {
  nodes : gmap string (gmap string string);
  edges : gset (string * string)
}.

Definition empty_graph : DiGraph := mkDiGraph ∅ ∅.

(** [G.add_node(n, **attr)]: a new node gets [attr]; for a node already
    there the attribute dict is updated, [attr] overriding. *)
Definition add_node (n : string) (attr : gmap string string) (G : DiGraph) : DiGraph :=
  mkDiGraph (<[n := attr ∪ default ∅ (nodes G !! n)]> (nodes G)) (edges G).

(** [G.add_edge(u, v)]: endpoints not yet in the graph are added with no
    attributes, and the pair joins the edge table. *)
Definition add_edge (u v : string) (G : DiGraph) : DiGraph :=
  let touch n (m : gmap string (gmap string string)) :=
    match m !! n with Some _ => m | None => <[n := ∅]> m end in
  mkDiGraph (touch v (touch u (nodes G))) ({[ (u, v) ]} ∪ edges G).

Definition has_node (n : string) (G : DiGraph) : bool :=
  bool_decide (is_Some (nodes G !! n)).

(** The keyword arguments [label=, title=, group=] of every [add_node] call. *)
Definition node_attrs (label title group : string) : gmap string string :=
  {[ "label" := label; "title" := title; "group" := group ]}.

(** ** generate_call_graphs.py: configuration *)

Definition REPO_DIR : string :=
  "/home/ubuntu/projects/head-pose-estimation-and-face-landmark".
Definition OUTPUT_DIR : string := "/home/ubuntu/call_graphs".

(** ** generate_call_graphs.py: graphs from the oracle's mapping *)

Section CallGraphs.

(** The corpus root.  The script reads the global [REPO_DIR]; the functions
    below take it as [repo_dir] so that they can be read at any
    configuration, the script's own included. *)
Variable repo_dir : string.

(** [REPO_DIR.replace('/home/ubuntu/', '')] *)
Definition corpus_prefix : string := Py.replace repo_dir "/home/ubuntu/" "".

Definition in_corpus (name : string) : bool := Py.startswith name corpus_prefix.

(** The body of [for call in calls] in [extract_function_calls]. *)
Definition function_calls_inner (func : string) (G : DiGraph) (call : string) : DiGraph :=
  if negb (in_corpus call) then G
  else
    let call_display := Py.last_item (Py.split "." call) in
    let call_module := Py.join "." (Py.but_last (Py.split "." call)) in
    add_edge func call (add_node call (node_attrs call_display call call_module) G).

(** The body of [for func, calls in call_graph_data.items()]. *)
Definition function_calls_outer (G : DiGraph) (item : string * list string) : DiGraph :=
  let '(func, calls) := item in
  if negb (in_corpus func) then G
  else
    let display_name := Py.last_item (Py.split "." func) in
    let module_name := Py.join "." (Py.but_last (Py.split "." func)) in
    fold_left (function_calls_inner func) calls
      (add_node func (node_attrs display_name func module_name) G).

Definition extract_function_calls (call_graph_data : list (string * list string)) : DiGraph :=
  fold_left function_calls_outer call_graph_data empty_graph.

(** First pass of [extract_class_calls]: the state is the graph and
    [func_to_class]. *)
Definition class_calls_first (st : DiGraph * gmap string string) (func : string)
  : DiGraph * gmap string string :=
  let '(G, func_to_class) := st in
  if negb (in_corpus func) then st
  else
    let parts := Py.split "." func in
    if bool_decide (3 ≤ length parts)%nat then
      let class_name := Py.join "." (Py.but_last parts) in
      let func_to_class' := <[func := class_name]> func_to_class in
      if negb (has_node class_name G) then
        let display_name := Py.last_item (Py.but_last parts) in
        let module_name := Py.join "." (Py.but_last (Py.but_last parts)) in
        (add_node class_name (node_attrs display_name class_name module_name) G,
         func_to_class')
      else (G, func_to_class')
    else st.

(** The body of [for call in calls] in the second pass. *)
Definition class_calls_inner (func_to_class : gmap string string) (source_class : string)
    (G : DiGraph) (call : string) : DiGraph :=
  match func_to_class !! call with
  | None => G
  | Some target_class =>
      if bool_decide (source_class = target_class) then G
      else add_edge source_class target_class G
  end.

(** The body of the second [for func, calls in call_graph_data.items()]. *)
Definition class_calls_second (func_to_class : gmap string string)
    (G : DiGraph) (item : string * list string) : DiGraph :=
  let '(func, calls) := item in
  match func_to_class !! func with
  | None => G
  | Some source_class =>
      fold_left (class_calls_inner func_to_class source_class) calls G
  end.

Definition extract_class_calls (call_graph_data : list (string * list string)) : DiGraph :=
  let '(G, func_to_class) :=
    fold_left class_calls_first (map fst call_graph_data) (empty_graph, ∅) in
  fold_left (class_calls_second func_to_class) call_graph_data G.

End CallGraphs.

(** ** Syntax trees of the [ast] module *)

(** [ast.arg]: only the name [arg] is read. *)
Record ast_arg := mk_arg { arg : string }.

(** [ast.arguments], the parameter lists of a definition.  [posonlyargs]
    holds the parameters written before a [/]; it is part of the node in
    every Python that has [end_lineno], though the scripts do not read
    it. *)
Record arguments := mk_arguments {
  posonlyargs : list ast_arg;
  args : list ast_arg;
  vararg : option ast_arg;
  kwonlyargs : list ast_arg;
  kwarg : option ast_arg
}.

(** What the scripts read of a [FunctionDef] (or [AsyncFunctionDef]) node:
    [node.name], [node.args] (here [def_args]), [node.lineno] and
    [node.end_lineno]. *)
Record function_def := mk_function_def {
  name : string;
  def_args : arguments;
  lineno : Z;
  end_lineno : Z
}.

(** The node classes the scripts tell apart with [isinstance].  Of a [Call]
    we keep [node.func.id], present when [node.func] is a [Name], and the
    attribute [parent_func], which [ast.parse] never sets but the fallback
    analysis looks for with [hasattr]. *)
Inductive node_class :=
  | FunctionDef (d : function_def)
  | AsyncFunctionDef (d : function_def)
  | ClassDef (class_name : string)
  | Call (func_id : option string) (parent_func : option string)
  | OtherNode.

#[local] Unset Elimination Schemes.
Inductive AST := Node (cls : node_class) (children : list AST).
#[local] Set Elimination Schemes.

Definition node_cls (t : AST) : node_class := let 'Node c _ := t in c.

(** [ast.iter_child_nodes(node)] *)
Definition iter_child_nodes (t : AST) : list AST := let 'Node _ cs := t in cs.

Fixpoint size (t : AST) : nat :=
  match t with Node _ cs => S (list_sum (map size cs)) end.

Definition forest_size (ts : list AST) : nat := list_sum (map size ts).

(** [ast.walk(node)]: the loop [while todo: node = todo.popleft();
    todo.extend(iter_child_nodes(node)); yield node].  Each turn removes one
    node of the tree from the queue, so [size node] turns empty it. *)
Fixpoint walk_loop (fuel : nat) (todo : list AST) : list AST :=
  match fuel, todo with
  | S fuel', node :: rest => node :: walk_loop fuel' (rest ++ iter_child_nodes node)
  | _, _ => []
  end.

Definition walk (node : AST) : list AST := walk_loop (size node) [node].

(** ** extract_functions.py *)

Module Extract.

Definition newline : ascii := "010"%char.
Definition carriage_return : ascii := "013"%char.

(** What a file opened with [open(path, "r", encoding="utf-8")] delivers
    of its decoded content: with the default [newline=None] every CR LF
    and every lone CR arrives as one line feed. *)
Fixpoint universal_newlines (content : string) : string :=
  match content with
  | EmptyString => EmptyString
  | String c rest =>
      if Ascii.eqb c carriage_return then
        match rest with
        | String c' rest' =>
            if Ascii.eqb c' newline
            then String newline (universal_newlines rest')
            else String newline (universal_newlines rest)
        | EmptyString => String newline EmptyString
        end
      else String c (universal_newlines rest)
  end.

(** [f.readlines()] on the text so delivered: the text cut after every
    line feed.  The argument is the text after the translation of line
    breaks, not the content of the file as stored. *)
Fixpoint readlines (text : string) : list string :=
  match text with
  | EmptyString => []
  | String c rest =>
      if Ascii.eqb c newline then String c EmptyString :: readlines rest
      else match readlines rest with
           | [] => [String c EmptyString]
           | l :: ls => String c l :: ls
           end
  end.

(** An index of a slice, as Python normalises it for a list of length [len]. *)
Definition slice_index (len i : Z) : Z :=
  if (i <? 0)%Z then Z.max (i + len) 0 else Z.min i len.

(** [l[start:stop]] *)
Definition slice {A} (l : list A) (start stop : Z) : list A :=
  let len := Z.of_nat (length l) in
  let s := slice_index len start in
  let e := slice_index len stop in
  take (Z.to_nat (e - s)) (drop (Z.to_nat s) l).

(** Lines 27-40: the list [arg_names]. *)
Definition arg_names (a : arguments) : list string :=
  map arg (args a)
  ++ match vararg a with Some v => ["*" +:+ arg v] | None => [] end
  ++ map (fun k => arg k +:+ "=?") (kwonlyargs a)
  ++ match kwarg a with Some k => ["**" +:+ arg k] | None => [] end.

(** Line 42: [f"{func_name}({', '.join(arg_names)})"] *)
Definition function_signature (d : function_def) : string :=
  name d +:+ "(" +:+ Py.join ", " (arg_names (def_args d)) +:+ ")".

(** Lines 45-47 *)
Definition func_src (source_lines : list string) (d : function_def) : string :=
  let start := (lineno d - 1)%Z in
  let end_ := end_lineno d in
  Py.join "" (slice source_lines start end_).

(** Line 48: the text printed for a definition. *)
Definition diagnostic (d : function_def) : string :=
  let start := (lineno d - 1)%Z in
  let end_ := end_lineno d in
  pretty (end_ - start + 1)%Z +:+ " lines in " +:+ name d.

(** What a run leaves behind: the rows handed to the CSV writer and the
    lines printed. *)
Record output := mk_output {
  csv_rows : list (list string);
  stdout : list string
}.

(** Line 51: the row written for a definition. *)
Definition row (source_lines : list string) (d : function_def) : list string :=
  [function_signature d; func_src source_lines d].

(** The body of [for node in ast.walk(tree)]. *)
Definition visit (source_lines : list string) (out : output) (node : AST) : output :=
  match node_cls node with
  | FunctionDef d =>
      mk_output (csv_rows out ++ [row source_lines d]) (stdout out ++ [diagnostic d])
  | _ => out
  end.

(** Line 21: the header row. *)
Definition header : list string := ["function_signature"; "source_code"].

Section WithParser.

(** [ast.parse], an external collaborator: [None] stands for the
    [SyntaxError] it raises. *)
Variable ast_parse : string -> option AST.

(** The body of [extract_functions(source_path, csv_path)] from the text
    [source_text] that reading in text mode delivers, line breaks already
    translated; [None] when parsing raises. *)
Definition extract_functions (source_text : string) : option output :=
  let source_lines := readlines source_text in
  let source_code := Py.join "" source_lines in
  match ast_parse source_code with
  | None => None
  | Some tree =>
      Some (fold_left (visit source_lines) (walk tree)
              (mk_output [header] []))
  end.

(** [extract_functions(source_path, csv_path)] on a file whose decoded
    content, as stored, is [file_content]. *)
Definition extract_functions_of_file (file_content : string) : option output :=
  extract_functions (universal_newlines file_content).

End WithParser.

End Extract.

(** ** generate_call_graphs.py: the fallback structural analysis *)

(** The script's list of files. *)
Definition python_files : list string :=
  [ "/home/ubuntu/projects/head-pose-estimation-and-face-landmark/evaluate_48.py";
    "/home/ubuntu/projects/head-pose-estimation-and-face-landmark/facePose.py";
    "/home/ubuntu/projects/head-pose-estimation-and-face-landmark/landmarkPredict.py";
    "/home/ubuntu/projects/head-pose-estimation-and-face-landmark/landmarkPredict_video.py";
    "/home/ubuntu/projects/head-pose-estimation-and-face-landmark/librect.py" ].

Module Fallback.

(** The variables of [analyze_python_file_structure] that outlive one turn
    of its loop, and the calls made to [create_interactive_graph] (graph,
    output file, title), which is where the graphs leave the function.
    Rendering is taken not to raise; what is printed is left out. *)
Record analysis := mk_analysis {
  combined_function_graph : DiGraph;
  combined_class_graph : DiGraph;
  function_graphs : list string;
  class_graphs : list string;
  rendered : list (DiGraph * string * string)
}.

Definition initial : analysis := mk_analysis empty_graph empty_graph [] [] [].

(** Lines 399-403: the lists [classes] and [functions]. *)
Definition collect (acc : list string * list string) (node : AST)
  : list string * list string :=
  match node_cls node with
  | ClassDef n => (acc.1 ++ [n], acc.2)
  | FunctionDef d => (acc.1, acc.2 ++ [name d])
  | _ => acc
  end.

(** Lines 407-409 and 413-415: one unit goes into the graph of the file and
    into the combined graph, with the same attributes. *)
Definition add_unit (file_name : string) (gs : DiGraph * DiGraph) (unit_name : string)
  : DiGraph * DiGraph :=
  let attr := node_attrs unit_name (file_name +:+ ":" +:+ unit_name) file_name in
  (add_node unit_name attr gs.1, add_node unit_name attr gs.2).

(** Lines 418-424 *)
Definition infer_call (functions : list string) (gs : DiGraph * DiGraph) (node : AST)
  : DiGraph * DiGraph :=
  match node_cls node with
  | Call (Some id) parent =>
      if bool_decide (id ∈ functions) then
        match parent with
        | Some p =>
            if bool_decide (p ∈ functions)
            then (add_edge p id gs.1, add_edge p id gs.2)
            else gs
        | None => gs
        end
      else gs
  | _ => gs
  end.

(** [os.path.join(OUTPUT_DIR, f)] for a relative [f]. *)
Definition output_path (f : string) : string := OUTPUT_DIR +:+ "/" +:+ f.

Section WithFiles.

(** Reading a file and parsing it are external: [None] stands for any
    exception, which the [try] of the loop catches. *)
Variable read_file : string -> option string.
Variable ast_parse : string -> option AST.

(** One turn of [for python_file in python_files]. *)
Definition analyze_file (st : analysis) (python_file : string) : analysis :=
  let file_name := Py.basename python_file in
  match read_file python_file ≫= ast_parse with
  | None => st
  | Some tree =>
      let '(classes, functions) := fold_left collect (walk tree) ([], []) in
      let '(function_graph, cfg) :=
        fold_left (add_unit file_name) functions
          (empty_graph, combined_function_graph st) in
      let '(class_graph, ccg) :=
        fold_left (add_unit file_name) classes
          (empty_graph, combined_class_graph st) in
      let '(function_graph, cfg) :=
        fold_left (infer_call functions) (walk tree) (function_graph, cfg) in
      let stem := Py.replace file_name ".py" "" in
      let f_out := output_path (stem +:+ "_function.html") in
      let c_out := output_path (stem +:+ "_class.html") in
      let has_f := bool_decide (functions ≠ []) in
      let has_c := bool_decide (classes ≠ []) in
      mk_analysis cfg ccg
        (function_graphs st ++ (if has_f then [f_out] else []))
        (class_graphs st ++ (if has_c then [c_out] else []))
        (rendered st
         ++ (if has_f
             then [(function_graph, f_out, "Function Call Graph: " +:+ file_name)]
             else [])
         ++ (if has_c
             then [(class_graph, c_out, "Class Call Graph: " +:+ file_name)]
             else []))
  end.

(** Lines 442-453: the combined graphs are rendered when they have a node. *)
Definition save_combined (st : analysis) : analysis :=
  let f_out := output_path "combined_function.html" in
  let c_out := output_path "combined_class.html" in
  let has_f := bool_decide (nodes (combined_function_graph st) ≠ ∅) in
  let has_c := bool_decide (nodes (combined_class_graph st) ≠ ∅) in
  mk_analysis (combined_function_graph st) (combined_class_graph st)
    (function_graphs st ++ (if has_f then [f_out] else []))
    (class_graphs st ++ (if has_c then [c_out] else []))
    (rendered st
     ++ (if has_f
         then [(combined_function_graph st, f_out,
                "Combined Function Call Graph (All Files)")]
         else [])
     ++ (if has_c
         then [(combined_class_graph st, c_out,
                "Combined Class Call Graph (All Files)")]
         else [])).

(** [analyze_python_file_structure()], over the list of files [files] (the
    script reads the global [python_files]). *)
Definition analyze_python_file_structure (files : list string) : analysis :=
  save_combined (fold_left analyze_file files initial).

End WithFiles.

End Fallback.

(** ** Specification-side notions *)

(** The owner of a fully-qualified name as the specification defines it:
    all segments but the last, when there are at least three. *)
Definition owner (fqn : string) : option string :=
  let parts := Py.split "." fqn in
  if bool_decide (3 ≤ length parts)%nat then Some (Py.join "." (Py.but_last parts)) else None.


(** The nodes of a tree at depth [n] below its root, left to right. *)
Fixpoint level (n : nat) (t : AST) : list AST :=
  match n with
  | O => [t]
  | S n' => flat_map (level n') (iter_child_nodes t)
  end.

(** Breadth-first order: depth 0, then depth 1, and so on. *)
Definition level_order (t : AST) : list AST :=
  flat_map (fun n => level n t) (seq 0 (size t)).

(** Document order: a node, then its children's subtrees from left to
    right. *)
Fixpoint preorder (t : AST) : list AST :=
  match t with Node c cs => Node c cs :: flat_map preorder cs end.

(** [subnode s t]: [s] is [t] or lies below it, at any depth. *)
Inductive subnode : AST -> AST -> Prop :=
  | subnode_here t : subnode t t
  | subnode_below s c t : c ∈ iter_child_nodes t -> subnode s c -> subnode s t.

(** The plain [def] definitions among a sequence of nodes. *)
Definition function_defs (l : list AST) : list function_def :=
  flat_map (fun n => match node_cls n with FunctionDef d => [d] | _ => [] end) l.

(** A line as [readlines] produces it: not empty, and with no line feed
    except possibly as its last character. *)
Fixpoint is_line (s : string) : bool :=
  match s with
  | EmptyString => false
  | String c EmptyString => true
  | String c rest => negb (Ascii.eqb c Extract.newline) && is_line rest
  end.

Fixpoint ends_with_newline (s : string) : bool :=
  match s with
  | EmptyString => false
  | String c EmptyString => Ascii.eqb c Extract.newline
  | String _ rest => ends_with_newline rest
  end.

(** The lines of a text: every one is a line, and all but the last end
    with a line feed. *)
Fixpoint lines_ok (l : list string) : Prop :=
  match l with
  | [] => True
  | s :: rest =>
      is_line s = true ∧
      match rest with [] => True | _ => ends_with_newline s = true end ∧
      lines_ok rest
  end.

(** [G.nodes[n][key]] *)
Definition node_attr (G : DiGraph) (n key : string) : option string :=
  nodes G !! n ≫= fun attr => attr !! key.

(** The set of node keys of a graph. *)
Definition node_set (G : DiGraph) : gset string := dom (nodes G).

(** The names of the class definitions among a sequence of nodes. *)
Definition class_names (l : list AST) : list string :=
  flat_map (fun n => match node_cls n with ClassDef c => [c] | _ => [] end) l.

(** The edges the fallback analysis infers from the calls among a sequence
    of nodes, [functions] being the names defined in the file. *)
Definition call_edges (functions : list string) (l : list AST) : gset (string * string) :=
  list_to_set
    (flat_map (fun n =>
       match node_cls n with
       | Call (Some id) (Some p) =>
           if bool_decide (id ∈ functions) && bool_decide (p ∈ functions)
           then [(p, id)] else []
       | _ => []
       end) l).

(** The attributes the fallback analysis gives a unit of a file. *)
Definition unit_attrs (file_name u : string) : gmap string string :=
  node_attrs u (file_name +:+ ":" +:+ u) file_name.

(** The signature string as the specification words it: the short name,
    then in parentheses and separated by commas the positional names, the
    variadic-positional name behind one star, the keyword-only names each
    followed by [=?], and the variadic-keyword name behind two stars. *)
Definition spec_signature (short_name : string) (positional : list string)
    (varpos : option string) (kwonly : list string) (varkw : option string) : string :=
  short_name +:+ "(" +:+
  Py.join ", "
    (positional
     ++ match varpos with Some v => ["*" +:+ v] | None => [] end
     ++ map (fun k => k +:+ "=?") kwonly
     ++ match varkw with Some k => ["**" +:+ k] | None => [] end)
  +:+ ")".

(** The positional parameters of a definition in declaration order: those
    before a [/], which can only be passed by position, then the ordinary
    ones. *)
Definition positional_parameters (a : arguments) : list string :=
  map arg (posonlyargs a) ++ map arg (args a).

(** The node and edge sets of the two combined graphs of an analysis. *)
Definition combined_sets (a : Fallback.analysis)
  : gset string * gset (string * string) * gset string * gset (string * string) :=
  (node_set (Fallback.combined_function_graph a),
   edges (Fallback.combined_function_graph a),
   node_set (Fallback.combined_class_graph a),
   edges (Fallback.combined_class_graph a)).

(** ** Further notions used to state properties of the scripts *)

(** [c in s] for a character. *)
Fixpoint contains (c : ascii) (s : string) : bool :=
  match s with
  | EmptyString => false
  | String c' s' => Ascii.eqb c' c || contains c s'
  end.

(** The attributes both graph builders derive from a dotted name: the
    label is the last segment, the title the name itself, the group what
    precedes the last dot. *)
Definition fqn_attrs (fqn : string) : gmap string string :=
  node_attrs (Py.last_item (Py.split "." fqn)) fqn
             (Py.join "." (Py.but_last (Py.split "." fqn))).

(** Every node of the graph carries the attributes derived from its own
    name. *)
Definition well_labelled (G : DiGraph) : Prop :=
  ∀ n attr, nodes G !! n = Some attr → attr = fqn_attrs n.

Section PerFileOutputs.

Variable read_file : string → option string.
Variable ast_parse : string → option AST.

(** The output files of the per-file function graphs, in the order of the
    files: one for every file that can be read and parsed and defines at
    least one function. *)
Definition function_outputs (files : list string) : list string :=
  flat_map (fun file =>
    match read_file file ≫= ast_parse with
    | Some tree =>
        if bool_decide (function_defs (walk tree) ≠ [])
        then [Fallback.output_path
                (Py.replace (Py.basename file) ".py" "" +:+ "_function.html")]
        else []
    | None => []
    end) files.

(** Likewise for the per-file class graphs. *)
Definition class_outputs (files : list string) : list string :=
  flat_map (fun file =>
    match read_file file ≫= ast_parse with
    | Some tree =>
        if bool_decide (class_names (walk tree) ≠ [])
        then [Fallback.output_path
                (Py.replace (Py.basename file) ".py" "" +:+ "_class.html")]
        else []
    | None => []
    end) files.

End PerFileOutputs.

(** The lines of a file as stored, each with its original line break: the
    content cut after every CR LF, lone CR or LF. *)
Fixpoint raw_lines (content : string) : list string :=
  match content with
  | EmptyString => []
  | String c rest =>
      if Ascii.eqb c Extract.carriage_return then
        match rest with
        | String c' rest' =>
            if Ascii.eqb c' Extract.newline
            then String c (String c' EmptyString) :: raw_lines rest'
            else String c EmptyString :: raw_lines rest
        | EmptyString => [String c EmptyString]
        end
      else if Ascii.eqb c Extract.newline then String c EmptyString :: raw_lines rest
      else match raw_lines rest with
           | [] => [String c EmptyString]
           | l :: ls => String c l :: ls
           end
  end.

(** ** Concrete inputs *)

Module Examples.

Definition root : string := "projects/head-pose-estimation-and-face-landmark".

(** A mapping in which the callee [b.D.n] is not itself a key. *)
Definition open_mapping : list (string * list string) :=
  [ (root +:+ ".a.C.m", [root +:+ ".b.D.n"; "numpy.array"]) ].

(** The same call, in a mapping that lists every unit as a key, together
    with a call inside a class and a call to a module-level function. *)
Definition closed_mapping : list (string * list string) :=
  [ (root +:+ ".a.C.m", [root +:+ ".b.D.n"; root +:+ ".a.C.m2"; "builtins.print"]);
    (root +:+ ".a.C.m2", []);
    (root +:+ ".b.D.n", []);
    ("builtins.print", []) ].

Definition no_arguments : arguments := mk_arguments [] [] None [] None.

Definition leaf : AST := Node OtherNode [].

Definition nl : string := String Extract.newline EmptyString.

(** [def a():] with a nested [def inner():], followed by [def b():]. *)
Definition nested_text : string :=
  Py.join "" (map (fun l => l +:+ nl)
    [ "def a():"; "    def inner():"; "        pass"; "def b():"; "    pass" ]).

Definition def_a : function_def := mk_function_def "a" no_arguments 1 3.
Definition def_inner : function_def := mk_function_def "inner" no_arguments 2 3.
Definition def_b : function_def := mk_function_def "b" no_arguments 4 5.

Definition nested_tree : AST :=
  Node OtherNode
    [ Node (FunctionDef def_a) [ leaf; Node (FunctionDef def_inner) [ leaf; leaf ] ];
      Node (FunctionDef def_b) [ leaf; leaf ] ].

(** [def outer(x, *args, k=1, **kw): ...] *)
Definition def_outer : function_def :=
  mk_function_def "outer"
    (mk_arguments [] [mk_arg "x"] (Some (mk_arg "args")) [mk_arg "k"] (Some (mk_arg "kw")))
    1 1.

(** [def f(a, /, b): pass] *)
Definition def_posonly : function_def :=
  mk_function_def "f" (mk_arguments [mk_arg "a"] [mk_arg "b"] None [] None) 1 1.

(** [async def fetch(): pass] followed by [def run(): pass]. *)
Definition async_text : string :=
  Py.join "" (map (fun l => l +:+ nl) [ "async def fetch(): pass"; "def run(): pass" ]).

Definition def_fetch : function_def := mk_function_def "fetch" no_arguments 1 1.
Definition def_run : function_def := mk_function_def "run" no_arguments 2 2.

Definition async_tree : AST :=
  Node OtherNode
    [ Node (AsyncFunctionDef def_fetch) [ leaf; leaf ];
      Node (FunctionDef def_run) [ leaf; leaf ] ].

(** Two files, each with a top-level [def foo(): pass]; the second also
    has a class [K].  A file system that holds just these, and a parser
    that knows their trees. *)
Definition file_a : string := "/repo/a.py".
Definition file_b : string := "/repo/b.py".

Definition tree_a : AST :=
  Node OtherNode [ Node (FunctionDef (mk_function_def "foo" no_arguments 1 1)) [ leaf; leaf ] ].

Definition tree_b : AST :=
  Node OtherNode
    [ Node (FunctionDef (mk_function_def "foo" no_arguments 1 1)) [ leaf; leaf ];
      Node (ClassDef "K") [ leaf ] ].

Definition read_file (path : string) : option string :=
  if bool_decide (path = file_a) then Some "def foo(): pass"
  else if bool_decide (path = file_b) then Some "def foo(): pass # b"
  else None.

Definition ast_parse (text : string) : option AST :=
  if bool_decide (text = "def foo(): pass") then Some tree_a
  else if bool_decide (text = "def foo(): pass # b") then Some tree_b
  else None.

End Examples.

Module MoreExamples.

(** A file [c.py] with [def f(): g()] and [def g(): pass], its [Call] node
    once as [ast.parse] returns it and once with the attribute
    [parent_func] set to [f] by an annotating pass. *)
Definition file_c : string := "/repo/c.py".

Definition def_f : function_def := mk_function_def "f" Examples.no_arguments 1 1.
Definition def_g : function_def := mk_function_def "g" Examples.no_arguments 2 2.

Definition calls_tree (parent : option string) : AST :=
  Node OtherNode
    [ Node (FunctionDef def_f)
        [ Examples.leaf;
          Node OtherNode [ Node (Call (Some "g") parent) [ Examples.leaf ] ] ];
      Node (FunctionDef def_g) [ Examples.leaf; Examples.leaf ] ].

Definition read_file (path : string) : option string :=
  if bool_decide (path = file_c) then Some "def f(): g()" else None.

Definition parse_plain (text : string) : option AST :=
  if bool_decide (text = "def f(): g()") then Some (calls_tree None) else None.

Definition parse_annotated (text : string) : option AST :=
  if bool_decide (text = "def f(): g()") then Some (calls_tree (Some "f")) else None.

End MoreExamples.

Module CrlfExample.

Definition crlf : string :=
  String Extract.carriage_return (String Extract.newline EmptyString).

(** A file with Windows line breaks holding [def f():] and its body. *)
Definition file_content : string :=
  "def f():" +:+ crlf +:+ "    pass" +:+ crlf.

Definition def_f : function_def := mk_function_def "f" Examples.no_arguments 1 2.

Definition tree : AST :=
  Node OtherNode [ Node (FunctionDef def_f) [ Examples.leaf; Examples.leaf ] ].

End CrlfExample.
(** * Properties *)

(** Closes a decidable goal about closed terms by evaluating its decision
    procedure. *)
Ltac by_evaluation := apply (bool_decide_unpack _); vm_compute; exact I.

(** ** The string primitives on small inputs *)

Example split_segments : Py.split "." "a.C.m" = ["a"; "C"; "m"].
Proof. reflexivity. Qed.

Example split_no_separator : Py.split "." "" = [""].
Proof. reflexivity. Qed.

Example join_but_last : Py.join "." (Py.but_last (Py.split "." "a.C.m")) = "a.C".
Proof. reflexivity. Qed.

Example replace_all_occurrences : Py.replace "a.py.py" ".py" "" = "a".
Proof. reflexivity. Qed.

Example basename_of_path : Py.basename "/repo/pkg/mod.py" = "mod.py".
Proof. reflexivity. Qed.

(** The prefix the script tests names against. *)
Example corpus_prefix_of_script :
  corpus_prefix REPO_DIR = "projects/head-pose-estimation-and-face-landmark".
Proof. reflexivity. Qed.

Example slice_clamps : Extract.slice [1; 2; 3]%Z 1 7 = [2; 3]%Z.
Proof. reflexivity. Qed.

(** ** Graph primitives *)

Lemma edges_add_node n attr G : edges (add_node n attr G) = edges G.
Proof. reflexivity. Qed.

Lemma edges_add_edge u v G : edges (add_edge u v G) = {[ (u, v) ]} ∪ edges G.
Proof. reflexivity. Qed.

(** ** The function-level graph *)

Section FunctionGraph.

Variable repo_dir : string.

Lemma function_calls_inner_edges func calls G e :
  e ∈ edges (fold_left (function_calls_inner repo_dir func) calls G) ↔
  e ∈ edges G ∨
  ∃ call, call ∈ calls ∧ in_corpus repo_dir call = true ∧ e = (func, call).
Proof.
  revert G. induction calls as [|c calls IH]; intros G; simpl.
  - split; [auto | intros [?|(? & []%elem_of_nil & _)]; done].
  - rewrite IH. unfold function_calls_inner.
    destruct (in_corpus repo_dir c) eqn:Hc; cbn [negb].
    + rewrite edges_add_edge, edges_add_node, elem_of_union, elem_of_singleton.
      split.
      * intros [[->|?]|(call & ? & ? & ->)]; eauto.
        -- right. exists c. rewrite elem_of_cons. auto.
        -- right. exists call. rewrite elem_of_cons. auto.
      * intros [?|(call & [->|?]%elem_of_cons & ? & ->)]; eauto.
    + split.
      * intros [?|(call & ? & ? & ->)]; eauto.
        right. exists call. rewrite elem_of_cons. auto.
      * intros [?|(call & [->|?]%elem_of_cons & ? & ->)]; eauto; congruence.
Qed.

Lemma function_calls_outer_edges data G e :
  e ∈ edges (fold_left (function_calls_outer repo_dir) data G) ↔
  e ∈ edges G ∨
  ∃ func calls call,
    (func, calls) ∈ data ∧ call ∈ calls ∧
    in_corpus repo_dir func = true ∧ in_corpus repo_dir call = true ∧
    e = (func, call).
Proof.
  revert G. induction data as [|[f cs] data IH]; intros G; simpl.
  - split; [auto | intros [?|(? & ? & ? & []%elem_of_nil & _)]; done].
  - rewrite IH. destruct (in_corpus repo_dir f) eqn:Hf; cbn [negb].
    + rewrite function_calls_inner_edges, edges_add_node. split.
      * intros [[?|(call & ? & ? & ->)]|(func & calls & call & ? & ? & ? & ? & ->)]; eauto.
        -- right. exists f, cs, call. rewrite elem_of_cons. auto.
        -- right. exists func, calls, call. rewrite elem_of_cons. auto 10.
      * intros [?|(func & calls & call & [[= -> ->]|?]%elem_of_cons & ? & ? & ? & ->)];
          eauto 10.
    + split.
      * intros [?|(func & calls & call & ? & ? & ? & ? & ->)]; eauto.
        right. exists func, calls, call. rewrite elem_of_cons. auto 10.
      * intros [?|(func & calls & call & [[= -> ->]|?]%elem_of_cons & ? & ? & ? & ->)];
          eauto 10; congruence.
Qed.

Lemma extract_function_calls_edges data e :
  e ∈ edges (extract_function_calls repo_dir data) ↔
  ∃ func calls call,
    (func, calls) ∈ data ∧ call ∈ calls ∧
    in_corpus repo_dir func = true ∧ in_corpus repo_dir call = true ∧
    e = (func, call).
Proof.
  unfold extract_function_calls. rewrite function_calls_outer_edges. simpl.
  split; [intros [[]%not_elem_of_empty|?]; done | auto].
Qed.

End FunctionGraph.

Section ClassGraph.

Variable repo_dir : string.

Lemma class_calls_first_edges keys G m :
  edges (fold_left (class_calls_first repo_dir) keys (G, m)).1 = edges G.
Proof.
  revert G m. induction keys as [|k keys IH]; intros G m; simpl; [done|].
  destruct (in_corpus repo_dir k); cbn [negb]; [|apply IH].
  case_bool_decide; [|apply IH].
  destruct (has_node _ G); cbn [negb]; rewrite IH; done.
Qed.

Lemma class_calls_first_map keys G m f c :
  (∀ g d, m !! g = Some d → owner g = Some d) →
  (fold_left (class_calls_first repo_dir) keys (G, m)).2 !! f = Some c ↔
  (f ∈ keys ∧ in_corpus repo_dir f = true ∧ owner f = Some c) ∨ m !! f = Some c.
Proof.
  revert G m. induction keys as [|k keys IH]; intros G m Hm; simpl.
  - split; [auto | intros [([]%elem_of_nil & _)|?]; done].
  - destruct (in_corpus repo_dir k) eqn:Hk; cbn [negb].
    + case_bool_decide as Hlen.
      * assert (Hown : owner k = Some (Py.join "." (Py.but_last (Py.split "." k)))).
        { unfold owner. rewrite bool_decide_eq_true_2; done. }
        assert (Hm' : ∀ g d,
          <[k := Py.join "." (Py.but_last (Py.split "." k))]> m !! g = Some d →
          owner g = Some d).
        { intros g d. destruct (decide (k = g)) as [->|Hne].
          - rewrite lookup_insert_eq. congruence.
          - rewrite lookup_insert_ne by done. apply Hm. }
        destruct (has_node _ G); cbn [negb]; rewrite IH by done;
          rewrite elem_of_cons; (split;
          [ intros [?|Hl]; [naive_solver|];
            destruct (decide (k = f)) as [->|Hne];
            [ rewrite lookup_insert_eq in Hl; left; naive_solver
            | rewrite lookup_insert_ne in Hl by done; auto ]
          | intros [([->|?] & ? & Ho)|Hl];
            [ right; rewrite lookup_insert_eq; congruence
            | naive_solver
            | destruct (decide (k = f)) as [->|Hne];
              [ right; rewrite lookup_insert_eq; apply Hm in Hl; congruence
              | right; rewrite lookup_insert_ne by done; done ] ] ]).
      * rewrite IH by done. rewrite elem_of_cons. split; [naive_solver|].
        intros [([->|?] & ? & Ho)|?]; [|naive_solver..].
        unfold owner in Ho. rewrite bool_decide_eq_false_2 in Ho; done.
    + rewrite IH by done. rewrite elem_of_cons. split; [naive_solver|].
      intros [([->|?] & ? & Ho)|?]; [congruence|naive_solver..].
Qed.

Lemma class_calls_inner_edges m X calls G e :
  e ∈ edges (fold_left (class_calls_inner m X) calls G) ↔
  e ∈ edges G ∨
  ∃ call Y, call ∈ calls ∧ m !! call = Some Y ∧ X ≠ Y ∧ e = (X, Y).
Proof.
  revert G. induction calls as [|c calls IH]; intros G; simpl.
  - split; [auto | intros [?|(? & ? & []%elem_of_nil & _)]; done].
  - rewrite IH. unfold class_calls_inner.
    destruct (m !! c) as [Y|] eqn:Hc.
    + case_bool_decide as HXY.
      * split; [|intros [?|(call & Y' & [->|?]%elem_of_cons & ? & ? & ->)]; eauto 10; congruence].
        intros [?|(call & Y' & ? & ? & ? & ->)]; eauto.
        right. exists call, Y'. rewrite elem_of_cons. auto.
      * rewrite edges_add_edge, elem_of_union, elem_of_singleton. split.
        -- intros [[->|?]|(call & Y' & ? & ? & ? & ->)]; eauto.
           ++ right. exists c, Y. rewrite elem_of_cons. auto.
           ++ right. exists call, Y'. rewrite elem_of_cons. auto.
        -- intros [?|(call & Y' & [->|?]%elem_of_cons & ? & ? & ->)]; eauto 10.
           left. left. congruence.
    + split; [|intros [?|(call & Y' & [->|?]%elem_of_cons & ? & ? & ->)]; eauto 10; congruence].
      intros [?|(call & Y' & ? & ? & ? & ->)]; eauto.
      right. exists call, Y'. rewrite elem_of_cons. auto.
Qed.

Lemma class_calls_second_edges m data G e :
  e ∈ edges (fold_left (class_calls_second m) data G) ↔
  e ∈ edges G ∨
  ∃ func calls call X Y,
    (func, calls) ∈ data ∧ call ∈ calls ∧
    m !! func = Some X ∧ m !! call = Some Y ∧ X ≠ Y ∧ e = (X, Y).
Proof.
  revert G. induction data as [|[f cs] data IH]; intros G; simpl.
  - split; [auto | intros [?|(? & ? & ? & ? & ? & []%elem_of_nil & _)]; done].
  - rewrite IH. destruct (m !! f) as [X|] eqn:Hf.
    + rewrite class_calls_inner_edges. split.
      * intros [[?|(call & Y & ? & ? & ? & ->)]|(func & calls & call & X' & Y & ? & ?)]; eauto.
        -- right. exists f, cs, call, X, Y. rewrite elem_of_cons. auto 10.
        -- right. exists func, calls, call, X', Y. rewrite elem_of_cons. auto.
      * intros [?|(func & calls & call & X' & Y & [[= -> ->]|?]%elem_of_cons & ? & ? & ? & ? & ->)];
          eauto 15.
        left. right. exists call, Y. split_and!; congruence.
    + split.
      * intros [?|(func & calls & call & X' & Y & ? & ?)]; eauto.
        right. exists func, calls, call, X', Y. rewrite elem_of_cons. auto.
      * intros [?|(func & calls & call & X' & Y & [[= -> ->]|?]%elem_of_cons & ? & ? & ? & ? & ->)];
          eauto 15. congruence.
Qed.

Lemma extract_class_calls_edges data e :
  e ∈ edges (extract_class_calls repo_dir data) ↔
  ∃ func calls call X Y,
    (func, calls) ∈ data ∧ call ∈ calls ∧
    in_corpus repo_dir func = true ∧ owner func = Some X ∧
    call ∈ map fst data ∧ in_corpus repo_dir call = true ∧ owner call = Some Y ∧
    X ≠ Y ∧ e = (X, Y).
Proof.
  unfold extract_class_calls.
  pose proof (class_calls_first_edges (map fst data) empty_graph ∅) as He.
  assert (Hm : ∀ f c,
    (fold_left (class_calls_first repo_dir) (map fst data) (empty_graph, ∅)).2 !! f
      = Some c ↔
    (f ∈ map fst data ∧ in_corpus repo_dir f = true ∧ owner f = Some c) ∨
    (∅ : gmap string string) !! f = Some c).
  { intros f c. apply class_calls_first_map. intros g d Hg.
    by rewrite lookup_empty in Hg. }
  destruct (fold_left _ _ _) as [G m]. simpl in He, Hm.
  rewrite class_calls_second_edges, He. simpl. split.
  - intros [[]%not_elem_of_empty|(func & calls & call & X & Y & Hin & Hc & HX & HY & Hne & ->)].
    apply Hm in HX as [(? & ? & ?)|HX]; [|by rewrite lookup_empty in HX].
    apply Hm in HY as [(? & ? & ?)|HY]; [|by rewrite lookup_empty in HY].
    exists func, calls, call, X, Y. auto 10.
  - intros (func & calls & call & X & Y & Hin & Hc & ? & ? & ? & ? & ? & Hne & ->).
    right. exists func, calls, call, X, Y. split_and!; try done.
    + apply Hm. left. split_and!; try done.
      apply list_elem_of_fmap. exists (func, calls). done.
    + apply Hm. left. done.
Qed.

(** When every in-corpus callee is itself a key of the mapping, as in a
    mapping that lists every unit, each edge of the function-level graph
    between two owned units with different owners gives a class edge. *)
Lemma extract_class_calls_edges_closed data :
  (∀ func calls call,
     (func, calls) ∈ data → call ∈ calls → in_corpus repo_dir call = true →
     call ∈ map fst data) →
  ∀ X Y,
    (X, Y) ∈ edges (extract_class_calls repo_dir data) ↔
    ∃ caller callee,
      (caller, callee) ∈ edges (extract_function_calls repo_dir data) ∧
      owner caller = Some X ∧ owner callee = Some Y ∧ X ≠ Y.
Proof.
  intros Hclosed X Y.
  rewrite extract_class_calls_edges. split.
  - intros (func & calls & call & X' & Y' & Hin & Hc & Hf & HX & Hk & Hcc & HY & Hne
            & [= -> ->]).
    exists func, call. split_and!; try done.
    apply extract_function_calls_edges. exists func, calls, call. done.
  - intros (caller & callee & He & HX & HY & Hne).
    apply extract_function_calls_edges in He
      as (func & calls & call & Hin & Hc & Hf & Hcc & [= -> ->]).
    exists func, calls, call, X, Y. split_and!; try done.
    by apply (Hclosed func calls call).
Qed.

End ClassGraph.

(** ** [ast.walk] *)

Section Walk.

Lemma forest_size_app (q r : list AST) :
  forest_size (q ++ r) = (forest_size q + forest_size r)%nat.
Proof. unfold forest_size. rewrite map_app, list_sum_app. done. Qed.

Lemma size_children (t : AST) : size t = S (forest_size (iter_child_nodes t)).
Proof. destruct t. reflexivity. Qed.

Lemma forest_size_children (q : list AST) :
  (forest_size (flat_map iter_child_nodes q) + length q = forest_size q)%nat.
Proof.
  induction q as [|t q IH]; simpl; [done|].
  rewrite forest_size_app. change (forest_size (t :: q)) with (size t + forest_size q)%nat.
  rewrite size_children. lia.
Qed.

(** The queue discipline: while the nodes [q] at the front are served,
    their children line up behind what was already waiting. *)
Lemma walk_loop_front (q p : list AST) (fuel : nat) :
  (forest_size q + forest_size (flat_map iter_child_nodes p) ≤ fuel)%nat →
  walk_loop fuel (q ++ flat_map iter_child_nodes p) =
  q ++ walk_loop (fuel - length q)
         (flat_map iter_child_nodes p ++ flat_map iter_child_nodes q).
Proof.
  revert p fuel. induction q as [|t q IH]; intros p fuel Hfuel.
  - simpl. rewrite Nat.sub_0_r, app_nil_r. done.
  - change (forest_size (t :: q)) with (size t + forest_size q)%nat in Hfuel.
    rewrite size_children in Hfuel.
    destruct fuel as [|fuel]; [lia|]. simpl.
    f_equal. rewrite <- app_assoc.
    replace (flat_map iter_child_nodes p ++ iter_child_nodes t)
      with (flat_map iter_child_nodes (p ++ [t]))
      by (rewrite flat_map_app; simpl; by rewrite app_nil_r).
    rewrite IH.
    + rewrite flat_map_app. simpl. rewrite app_nil_r, <- app_assoc. done.
    + rewrite flat_map_app, forest_size_app. simpl. rewrite app_nil_r. lia.
Qed.

Lemma walk_loop_step (q : list AST) (fuel : nat) :
  (forest_size q ≤ fuel)%nat →
  walk_loop fuel q = q ++ walk_loop (fuel - length q) (flat_map iter_child_nodes q).
Proof.
  intros Hfuel. pose proof (walk_loop_front q [] fuel) as H.
  simpl in H. rewrite app_nil_r in H. apply H.
  change (forest_size []) with 0%nat. lia.
Qed.

Lemma level_forest_zero (q : list AST) : flat_map (level 0) q = q.
Proof.
  induction q as [|t q IH]; [done|].
  change (flat_map (level 0) (t :: q)) with (t :: flat_map (level 0) q).
  by rewrite IH.
Qed.

Lemma level_forest_succ (n : nat) (q : list AST) :
  flat_map (level (S n)) q = flat_map (level n) (flat_map iter_child_nodes q).
Proof.
  induction q as [|t q IH]; simpl; [done|].
  rewrite flat_map_app. f_equal. done.
Qed.

Lemma size_elem_of (t : AST) (q : list AST) : t ∈ q → (size t ≤ forest_size q)%nat.
Proof.
  induction q as [|u q IH]; [by intros ?%elem_of_nil|].
  change (forest_size (u :: q)) with (size u + forest_size q)%nat.
  intros [->|Hin]%elem_of_cons; [lia|]. apply IH in Hin. lia.
Qed.

Lemma level_forest_beyond (n : nat) (q : list AST) :
  (forest_size q ≤ n)%nat → flat_map (level n) q = [].
Proof.
  revert q. induction n as [|n IH]; intros q Hq.
  - destruct q as [|t q]; [done|].
    change (forest_size (t :: q)) with (size t + forest_size q)%nat in Hq.
    rewrite size_children in Hq. lia.
  - rewrite level_forest_succ. apply IH.
    pose proof (forest_size_children q). destruct q; simpl in *; lia.
Qed.

Lemma levels_beyond (q : list AST) (a b : nat) :
  (forest_size q ≤ a)%nat →
  flat_map (fun n => flat_map (level n) q) (seq a b) = [].
Proof.
  revert a. induction b as [|b IH]; intros a Ha; simpl; [done|].
  rewrite level_forest_beyond by done. rewrite IH by lia. done.
Qed.

Lemma levels_shift (q : list AST) (a b : nat) :
  flat_map (fun n => flat_map (level n) q) (seq (S a) b) =
  flat_map (fun n => flat_map (level n) (flat_map iter_child_nodes q)) (seq a b).
Proof.
  revert a. induction b as [|b IH]; intros a; simpl; [done|].
  rewrite <- level_forest_succ. f_equal. apply IH.
Qed.

(** With fuel for every node waiting, the loop yields the forest level by
    level. *)
Lemma walk_loop_levels (fuel : nat) (q : list AST) :
  (forest_size q ≤ fuel)%nat →
  walk_loop fuel q = flat_map (fun n => flat_map (level n) q) (seq 0 fuel).
Proof.
  revert q. induction (lt_wf fuel) as [fuel _ IH]. intros q Hq.
  destruct q as [|t q].
  - destruct fuel; simpl; [done|]. symmetry.
    apply (levels_beyond [] 1 fuel). change (forest_size []) with 0%nat. lia.
  - rewrite walk_loop_step by done.
    pose proof (forest_size_children (t :: q)) as Hc.
    set (r := t :: q) in *. assert (Hlen : (1 ≤ length r)%nat) by (simpl; lia).
    destruct fuel as [|fuel]; [lia|].
    rewrite IH by lia.
    transitivity (flat_map (level 0) r
                  ++ flat_map (fun n => flat_map (level n) r) (seq 1 fuel));
      [|reflexivity].
    rewrite level_forest_zero.
    f_equal. rewrite levels_shift.
    replace fuel with ((S fuel - length r) + (length r - 1))%nat at 2 by lia.
    rewrite seq_app, flat_map_app. rewrite (levels_beyond _ _ (length r - 1)) by lia.
    rewrite app_nil_r. done.
Qed.

(** [ast.walk] visits the tree in breadth-first order. *)
Lemma walk_level_order (t : AST) : walk t = level_order t.
Proof.
  unfold walk, level_order. rewrite walk_loop_levels.
  - apply flat_map_ext. intros n. simpl. apply app_nil_r.
  - unfold forest_size. simpl. lia.
Qed.

(** The fuel [size t] is enough: more of it yields the same sequence. *)
Lemma walk_loop_enough (t : AST) (fuel : nat) :
  (size t ≤ fuel)%nat → walk_loop fuel [t] = walk t.
Proof.
  intros Hfuel. unfold walk.
  assert (Hsize : forest_size [t] = size t) by (unfold forest_size; simpl; lia).
  rewrite !walk_loop_levels by lia.
  replace fuel with (size t + (fuel - size t))%nat by lia.
  rewrite seq_app, flat_map_app.
  rewrite (levels_beyond [t] (0 + size t) (fuel - size t)) by lia.
  by rewrite app_nil_r.
Qed.

Lemma elem_of_level_subnode (s t : AST) : subnode s t ↔ ∃ n, s ∈ level n t.
Proof.
  split.
  - induction 1 as [t|s c t Hc _ [n IH]].
    + exists 0%nat. simpl. apply list_elem_of_singleton. done.
    + exists (S n). simpl. apply list_elem_of_In, in_flat_map.
      exists c. split; apply list_elem_of_In; done.
  - intros [n Hn]. revert t Hn. induction n as [|n IH]; intros t Hn; simpl in Hn.
    + apply list_elem_of_singleton in Hn as ->. constructor.
    + apply list_elem_of_In, in_flat_map in Hn as (c & Hc & Hs).
      apply subnode_below with c; [by apply list_elem_of_In|].
      apply IH. by apply list_elem_of_In.
Qed.

(** [ast.walk] yields exactly the nodes of the tree. *)
Lemma elem_of_walk (s t : AST) : s ∈ walk t ↔ subnode s t.
Proof.
  rewrite walk_level_order, elem_of_level_subnode. unfold level_order. split.
  - intros (n & _ & Hs)%list_elem_of_In%in_flat_map. exists n. by apply list_elem_of_In.
  - intros [n Hs]. apply list_elem_of_In, in_flat_map. exists n.
    split; [|by apply list_elem_of_In].
    apply in_seq. split; [lia|]. simpl.
    destruct (decide (n < size t)%nat) as [|Hge]; [done|].
    pose proof (level_forest_beyond n [t]) as Hb. simpl in Hb.
    rewrite app_nil_r in Hb. rewrite Hb in Hs; [by apply elem_of_nil in Hs|].
    unfold forest_size. simpl. lia.
Qed.

End Walk.

(** ** extract_functions.py *)

Section ExtractFunctions.

Import Extract.

Lemma readlines_cons_line (s t : string) :
  is_line s = true → ends_with_newline s = true →
  readlines (s +:+ t) = s :: readlines t.
Proof.
  induction s as [|c s IH]; [done|]. intros Hl He.
  destruct s as [|c' s'].
  - simpl in He. simpl. rewrite He. apply Ascii.eqb_eq in He as ->. done.
  - change (is_line (String c (String c' s')))
      with (negb (Ascii.eqb c newline) && is_line (String c' s')) in Hl.
    apply andb_true_iff in Hl as [Hc Hl]. apply negb_true_iff in Hc.
    change (ends_with_newline (String c (String c' s')))
      with (ends_with_newline (String c' s')) in He.
    change (readlines (String c (String c' s') +:+ t))
      with (if Ascii.eqb c newline
            then String c EmptyString :: readlines (String c' s' +:+ t)
            else match readlines (String c' s' +:+ t) with
                 | [] => [String c EmptyString]
                 | l :: ls => String c l :: ls
                 end).
    rewrite Hc, IH by done. done.
Qed.

Lemma readlines_single_line (s : string) : is_line s = true → readlines s = [s].
Proof.
  induction s as [|c s IH]; [done|]. intros Hl.
  destruct s as [|c' s'].
  - simpl. by destruct (Ascii.eqb c newline).
  - change (is_line (String c (String c' s')))
      with (negb (Ascii.eqb c newline) && is_line (String c' s')) in Hl.
    apply andb_true_iff in Hl as [Hc Hl]. apply negb_true_iff in Hc.
    change (readlines (String c (String c' s')))
      with (if Ascii.eqb c newline
            then String c EmptyString :: readlines (String c' s')
            else match readlines (String c' s') with
                 | [] => [String c EmptyString]
                 | l :: ls => String c l :: ls
                 end).
    rewrite Hc, IH by done. done.
Qed.

Lemma append_empty_r (s : string) : s +:+ "" = s.
Proof.
  induction s as [|c s IH]; [done|].
  change (String c (s +:+ "") = String c s). by rewrite IH.
Qed.

Lemma join_cons (s : string) (l : list string) :
  Py.join "" (s :: l) = s +:+ Py.join "" l.
Proof.
  destruct l as [|t l]; [|done].
  change (Py.join "" [s]) with s. change (Py.join "" []) with "".
  by rewrite append_empty_r.
Qed.

(** Joining lines and cutting the text again gives the lines back. *)
Lemma readlines_join (l : list string) : lines_ok l → readlines (Py.join "" l) = l.
Proof.
  induction l as [|s l IH]; [done|]. intros (Hs & He & Hl).
  destruct l as [|t l].
  - simpl. by apply readlines_single_line.
  - rewrite join_cons, readlines_cons_line, IH; done.
Qed.

Lemma readlines_ok (text : string) : lines_ok (readlines text).
Proof.
  induction text as [|c text IH]; [done|]. simpl.
  destruct (Ascii.eqb c newline) eqn:Hc.
  - simpl. rewrite Hc. split_and!; [done| |done]. by destruct (readlines text).
  - destruct (readlines text) as [|l ls]; [done|].
    destruct IH as (Hl & He & Hls). simpl. split_and!; [| |done].
    + destruct l; [done|]. by rewrite Hc.
    + destruct ls; [done|]. by destruct l.
Qed.

(** [source_code], the lines joined again, is the text that was read. *)
Lemma join_readlines (text : string) : Py.join "" (readlines text) = text.
Proof.
  induction text as [|c text IH]; [done|]. simpl.
  destruct (Ascii.eqb c newline).
  - rewrite join_cons.
    change (String c (Py.join "" (readlines text)) = String c text). by rewrite IH.
  - destruct (readlines text) as [|l ls].
    + change (Py.join "" []) with "" in IH. by rewrite <- IH.
    + rewrite join_cons in *.
      change (String c (l +:+ Py.join "" ls) = String c text). by rewrite IH.
Qed.

Lemma lines_ok_drop (n : nat) (l : list string) : lines_ok l → lines_ok (drop n l).
Proof.
  revert l. induction n as [|n IH]; intros l Hl; [done|].
  destruct l as [|s l]; [done|]. simpl. apply IH. apply Hl.
Qed.

Lemma lines_ok_take (n : nat) (l : list string) : lines_ok l → lines_ok (take n l).
Proof.
  revert l. induction n as [|n IH]; intros l Hl; [done|].
  destruct l as [|s l]; [done|]. destruct Hl as (Hs & He & Hl).
  simpl. split_and!; [done| |by apply IH].
  destruct n, l; simpl; done.
Qed.

(** The slice taken for a span that lies inside the file. *)
Lemma slice_span {A} (l : list A) (a b : Z) :
  (1 ≤ a)%Z → (a ≤ b)%Z → (b ≤ Z.of_nat (length l))%Z →
  slice l (a - 1) b = take (Z.to_nat (b - a + 1)) (drop (Z.to_nat (a - 1)) l)
  ∧ Z.of_nat (length (slice l (a - 1) b)) = (b - a + 1)%Z.
Proof.
  intros Ha Hab Hb. unfold slice, slice_index.
  destruct (Z.ltb_spec (a - 1) 0); [lia|]. destruct (Z.ltb_spec b 0); [lia|].
  rewrite !Z.min_l by lia.
  replace (b - (a - 1))%Z with (b - a + 1)%Z by lia. split; [done|].
  rewrite length_take, length_drop. lia.
Qed.

(** The loop over the walk adds one row and one printed line per plain
    definition met, in the order of the walk. *)
Lemma fold_visit (lines : list string) (l : list AST) (out : output) :
  fold_left (visit lines) l out =
  mk_output (csv_rows out ++ map (row lines) (function_defs l))
            (stdout out ++ map diagnostic (function_defs l)).
Proof.
  revert out. induction l as [|n l IH]; intros out; simpl.
  - rewrite !app_nil_r. by destruct out.
  - rewrite IH. unfold visit, function_defs. simpl.
    destruct (node_cls n); simpl; rewrite <- ?app_assoc; done.
Qed.

Lemma elem_of_function_defs (d : function_def) (l : list AST) :
  d ∈ function_defs l ↔ ∃ n, n ∈ l ∧ node_cls n = FunctionDef d.
Proof.
  unfold function_defs. rewrite list_elem_of_In, in_flat_map. split.
  - intros (n & Hn & Hd). exists n. split; [by apply list_elem_of_In|].
    destruct (node_cls n); simpl in Hd; try done. destruct Hd as [->|[]]. done.
  - intros (n & Hn & Hd). exists n. split; [by apply list_elem_of_In|].
    rewrite Hd. by left.
Qed.

Variable ast_parse : string → option AST.

Lemma extract_functions_rows (text : string) (tree : AST) :
  ast_parse text = Some tree →
  extract_functions ast_parse text =
  Some (mk_output (header :: map (row (readlines text)) (function_defs (walk tree)))
                  (map diagnostic (function_defs (walk tree)))).
Proof.
  intros Hp. unfold extract_functions. rewrite join_readlines, Hp, fold_visit. done.
Qed.

End ExtractFunctions.

(** ** The fallback structural analysis *)

Lemma node_set_add_node n attr G : node_set (add_node n attr G) = {[ n ]} ∪ node_set G.
Proof. unfold node_set, add_node. simpl. apply dom_insert_L. Qed.

Lemma nodes_add_edge_known u v G :
  u ∈ node_set G → v ∈ node_set G → nodes (add_edge u v G) = nodes G.
Proof.
  unfold node_set, add_edge. rewrite !elem_of_dom. intros [a Ha] [b Hb]. simpl.
  rewrite Ha, Hb. done.
Qed.

Lemma node_attr_add_node_eq n attr G key v :
  attr !! key = Some v → node_attr (add_node n attr G) n key = Some v.
Proof.
  intros Hk. unfold node_attr, add_node. simpl. rewrite lookup_insert_eq. simpl.
  apply lookup_union_Some_l. done.
Qed.

Lemma nodes_add_node_ne n m attr G : n ≠ m → nodes (add_node n attr G) !! m = nodes G !! m.
Proof. intros Hne. unfold add_node. simpl. by rewrite lookup_insert_ne. Qed.

Section FallbackSteps.

Import Fallback.

Lemma collect_fold (l : list AST) (acc : list string * list string) :
  fold_left collect l acc =
  (acc.1 ++ class_names l, acc.2 ++ map name (function_defs l)).
Proof.
  revert acc. induction l as [|n l IH]; intros [cs fs]; simpl.
  - by rewrite !app_nil_r.
  - rewrite IH. unfold collect, class_names, function_defs. simpl.
    destruct (node_cls n); simpl; rewrite <- ?app_assoc; done.
Qed.

Lemma add_unit_fold_snd fn units gs :
  (fold_left (add_unit fn) units gs).2 =
  fold_left (fun g u => add_node u (unit_attrs fn u) g) units gs.2.
Proof. revert gs. induction units as [|u units IH]; intros gs; simpl; [done|]. by rewrite IH. Qed.

Lemma add_units_node_set fn units G :
  node_set (fold_left (fun g u => add_node u (unit_attrs fn u) g) units G)
  = list_to_set units ∪ node_set G.
Proof.
  revert G. induction units as [|u units IH]; intros G; simpl.
  - set_solver.
  - rewrite IH, node_set_add_node. set_solver.
Qed.

Lemma add_units_edges fn units G :
  edges (fold_left (fun g u => add_node u (unit_attrs fn u) g) units G) = edges G.
Proof. revert G. induction units as [|u units IH]; intros G; simpl; [done|]. by rewrite IH. Qed.

Lemma add_units_other fn units G n :
  n ∉ units →
  nodes (fold_left (fun g u => add_node u (unit_attrs fn u) g) units G) !! n = nodes G !! n.
Proof.
  revert G. induction units as [|u units IH]; intros G Hn; simpl; [done|].
  apply not_elem_of_cons in Hn as [Hne Hn]. rewrite IH by done.
  by apply nodes_add_node_ne.
Qed.

(** A unit of the file ends with the attributes this file gives it,
    whatever the graph held for it before. *)
Lemma add_units_attr fn units G n key v :
  n ∈ units → unit_attrs fn n !! key = Some v →
  node_attr (fold_left (fun g u => add_node u (unit_attrs fn u) g) units G) n key = Some v.
Proof.
  revert G. induction units as [|u units IH]; intros G Hn Hk; simpl.
  - by apply elem_of_nil in Hn.
  - destruct (decide (n ∈ units)) as [Hin|Hout]; [by apply IH|].
    apply elem_of_cons in Hn as [->|?]; [|done].
    unfold node_attr. rewrite add_units_other by done.
    by apply node_attr_add_node_eq.
Qed.

Lemma infer_call_fold_snd functions l gs :
  list_to_set functions ⊆ node_set gs.2 →
  nodes (fold_left (infer_call functions) l gs).2 = nodes gs.2 ∧
  edges (fold_left (infer_call functions) l gs).2 = edges gs.2 ∪ call_edges functions l.
Proof.
  revert gs. induction l as [|n l IH]; intros gs Hsub.
  - simpl. split; [done|]. unfold call_edges. simpl. set_solver.
  - change (fold_left (infer_call functions) (n :: l) gs)
      with (fold_left (infer_call functions) l (infer_call functions gs n)).
    assert (Hcons : call_edges functions (n :: l) =
      call_edges functions [n] ∪ call_edges functions l).
    { unfold call_edges. simpl. rewrite app_nil_r, list_to_set_app_L. done. }
    assert (Hstep : nodes (infer_call functions gs n).2 = nodes gs.2 ∧
      edges (infer_call functions gs n).2 = edges gs.2 ∪ call_edges functions [n]).
    { unfold infer_call, call_edges. simpl.
      destruct (node_cls n) as [| | |[id|] [p|]|]; simpl;
        try (split; [done|set_solver]).
      - repeat case_bool_decide; simpl; try (split; [done|set_solver]).
        split; [|set_solver].
        apply nodes_add_edge_known; apply Hsub, elem_of_list_to_set; done.
      - case_bool_decide; simpl; split; (done || set_solver). }
    destruct Hstep as [Hn He].
    destruct (IH (infer_call functions gs n)) as [IHn IHe].
    { unfold node_set in *. by rewrite Hn. }
    rewrite IHn, IHe, Hn, He, Hcons. split; [done|set_solver].
Qed.

End FallbackSteps.

Section FallbackFile.

Import Fallback.

Variable read_file : string → option string.
Variable ast_parse : string → option AST.

Lemma analyze_file_failed st file :
  read_file file ≫= ast_parse = None → analyze_file read_file ast_parse st file = st.
Proof. intros H. unfold analyze_file. by rewrite H. Qed.

(** What one file does to the combined graphs. *)
Lemma analyze_file_combined st file tree :
  read_file file ≫= ast_parse = Some tree →
  let fn := Py.basename file in
  let functions := map name (function_defs (walk tree)) in
  let st' := analyze_file read_file ast_parse st file in
  nodes (combined_function_graph st') =
    nodes (fold_left (fun g u => add_node u (unit_attrs fn u) g) functions
             (combined_function_graph st)) ∧
  edges (combined_function_graph st') =
    edges (combined_function_graph st) ∪ call_edges functions (walk tree) ∧
  combined_class_graph st' =
    fold_left (fun g u => add_node u (unit_attrs fn u) g) (class_names (walk tree))
      (combined_class_graph st).
Proof.
  intros Hp. simpl. unfold analyze_file. rewrite Hp, collect_fold. simpl.
  set (functions := map name (function_defs (walk tree))).
  set (classes := class_names (walk tree)).
  pose proof (add_unit_fold_snd (Py.basename file) functions
                (empty_graph, combined_function_graph st)) as Hf.
  pose proof (add_unit_fold_snd (Py.basename file) classes
                (empty_graph, combined_class_graph st)) as Hc.
  destruct (fold_left (add_unit (Py.basename file)) functions _) as [fg cfg].
  destruct (fold_left (add_unit (Py.basename file)) classes _) as [cg ccg].
  simpl in Hf, Hc.
  pose proof (infer_call_fold_snd functions (walk tree) (fg, cfg)) as Hi.
  destruct (fold_left (infer_call functions) (walk tree) (fg, cfg)) as [fg' cfg'].
  simpl in Hi. simpl.
  destruct Hi as [Hn He].
  { rewrite Hf, add_units_node_set. set_solver. }
  rewrite Hn, He, Hf, add_units_edges. done.
Qed.

End FallbackFile.

(** * The claims about the graphs built from the oracle's mapping *)

(** C1.  Every edge of the function-level graph built by
    [extract_function_calls] has a caller and a callee that both start
    with the corpus-root prefix: no edge with an endpoint failing the
    prefix test is in the graph, whatever the oracle's mapping. *)
Theorem function_graph_edges_in_corpus
    (repo_dir : string) (call_graph_data : list (string * list string))
    (caller callee : string) :
  (caller, callee) ∈ edges (extract_function_calls repo_dir call_graph_data) →
  Py.startswith caller (corpus_prefix repo_dir) = true ∧
  Py.startswith callee (corpus_prefix repo_dir) = true.
Proof.
  rewrite extract_function_calls_edges.
  intros (func & calls & call & _ & _ & Hf & Hc & [= -> ->]). done.
Qed.

Lemma function_graph_edges_in_corpus_witness :
  Py.startswith (Examples.root +:+ ".a.C.m") (corpus_prefix REPO_DIR) = true ∧
  Py.startswith (Examples.root +:+ ".b.D.n") (corpus_prefix REPO_DIR) = true.
Proof.
  apply (function_graph_edges_in_corpus REPO_DIR Examples.open_mapping).
  by_evaluation.
Defined.

(** C2.  The class-level graph built by [extract_class_calls] has no
    self-loop: an edge never joins a class to itself, whatever the oracle's
    mapping. *)
Theorem class_graph_no_self_loop
    (repo_dir : string) (call_graph_data : list (string * list string))
    (source_class target_class : string) :
  (source_class, target_class) ∈ edges (extract_class_calls repo_dir call_graph_data) →
  source_class ≠ target_class.
Proof.
  rewrite extract_class_calls_edges.
  intros (func & calls & call & X & Y & _ & _ & _ & _ & _ & _ & _ & Hne & [= -> ->]).
  done.
Qed.

Lemma class_graph_no_self_loop_witness :
  Examples.root +:+ ".a.C" ≠ Examples.root +:+ ".b.D".
Proof.
  apply (class_graph_no_self_loop REPO_DIR Examples.closed_mapping).
  by_evaluation.
Defined.


(** What the code computes.  The edges of the class-level graph are
    exactly the pairs [(owner caller, owner callee)] over the edges [(caller, callee)] of the
    function-level graph whose callee is itself a key of the oracle's
    mapping, whose two ends have at least three segments, and whose owners
    differ.  So [a.C.m -> b.D.n] gives the class edge [(a.C, b.D)] when
    [b.D.n] is a key, and an end with two segments gives none. *)
Theorem class_graph_edges_characterised
    (repo_dir : string) (call_graph_data : list (string * list string)) :
  (∀ X Y : string,
     (X, Y) ∈ edges (extract_class_calls repo_dir call_graph_data) ↔
     ∃ caller callee,
       (caller, callee) ∈ edges (extract_function_calls repo_dir call_graph_data) ∧
       callee ∈ map fst call_graph_data ∧
       (3 ≤ length (Py.split "." caller))%nat ∧
       (3 ≤ length (Py.split "." callee))%nat ∧
       X = Py.join "." (Py.but_last (Py.split "." caller)) ∧
       Y = Py.join "." (Py.but_last (Py.split "." callee)) ∧
       X ≠ Y) ∧
  edges (extract_class_calls "/home/ubuntu/" [("a.C.m", ["b.D.n"]); ("b.D.n", [])])
    = {[ ("a.C", "b.D") ]} ∧
  edges (extract_class_calls "/home/ubuntu/" [("a.C.m", ["a.f"]); ("a.f", [])]) = ∅.
Proof.
  split_and!; [|vm_compute; reflexivity..].
  intros X Y. rewrite extract_class_calls_edges. split.
  - intros (func & calls & call & X' & Y' & Hin & Hc & Hf & HX & Hk & Hcc & HY & Hne
            & [= -> ->]).
    exists func, call. unfold owner in HX, HY.
    repeat case_bool_decide; try done.
    injection HX as <-. injection HY as <-.
    split_and!; try done.
    apply extract_function_calls_edges. exists func, calls, call. done.
  - intros (caller & callee & He & Hk & Hl1 & Hl2 & -> & -> & Hne).
    apply extract_function_calls_edges in He
      as (func & calls & call & Hin & Hc & Hf & Hcc & [= -> ->]).
    exists func, calls, call. eexists _, _.
    split_and!; try done; unfold owner; by rewrite bool_decide_eq_true_2.
Qed.

(** * The claims about the signature and source extractor *)

Section ExtractClaims.

Import Extract.

(** The signature of a definition without positional-only parameters is
    the one the specification describes. *)
Lemma function_signature_format (d : function_def) :
  posonlyargs (def_args d) = [] →
  function_signature d =
  spec_signature (name d) (positional_parameters (def_args d))
    (arg <$> vararg (def_args d)) (map arg (kwonlyargs (def_args d)))
    (arg <$> kwarg (def_args d)).
Proof.
  intros Hpos. unfold function_signature, spec_signature, arg_names, positional_parameters.
  rewrite Hpos, map_map. simpl.
  destruct (vararg (def_args d)), (kwarg (def_args d)); done.
Qed.

Example signature_of_outer : function_signature Examples.def_outer = "outer(x, *args, k=?, **kw)".
Proof. reflexivity. Qed.

(** C6.  For [def f(a, /, b): pass] the signature emitted is [f(b)]: the
    positional-only parameter [a] is missing, where the signature of the
    specification lists the positional names [a, b]. *)
Theorem positional_only_parameter_dropped :
  function_signature Examples.def_posonly = "f(b)" ∧
  spec_signature (name Examples.def_posonly)
    (positional_parameters (def_args Examples.def_posonly))
    (arg <$> vararg (def_args Examples.def_posonly))
    (map arg (kwonlyargs (def_args Examples.def_posonly)))
    (arg <$> kwarg (def_args Examples.def_posonly)) = "f(a, b)".
Proof. split; reflexivity. Qed.

(** The number printed for a definition is one more than the number of
    lines of its span. *)
Remark diagnostic_counts_one_more (d : function_def) :
  diagnostic d = pretty (end_lineno d - lineno d + 2)%Z +:+ " lines in " +:+ name d.
Proof. unfold diagnostic. do 2 f_equal. lia. Qed.

Variable ast_parse : string → option AST.

(** On the text that reading in text mode delivers: a definition at any
    depth of the tree, nested ones included, whose span
    [lineno .. end_lineno] lies inside that text gets a row of its own;
    the source text of the row is lines [lineno] through [end_lineno] of
    the delivered text joined as they are, and it has
    [end_lineno - lineno + 1] lines. *)
Theorem source_text_is_the_span
    (source_text : string) (tree : AST) (d : function_def) (children : list AST) :
  ast_parse source_text = Some tree →
  subnode (Node (FunctionDef d) children) tree →
  (1 ≤ lineno d)%Z → (lineno d ≤ end_lineno d)%Z →
  (end_lineno d ≤ Z.of_nat (length (readlines source_text)))%Z →
  let span :=
    take (Z.to_nat (end_lineno d - lineno d + 1))
         (drop (Z.to_nat (lineno d - 1)) (readlines source_text)) in
  ∃ out,
    extract_functions ast_parse source_text = Some out ∧
    [function_signature d; Py.join "" span] ∈ csv_rows out ∧
    readlines (Py.join "" span) = span ∧
    Z.of_nat (length span) = (end_lineno d - lineno d + 1)%Z.
Proof.
  intros Hp Hsub Ha Hab Hb span.
  destruct (slice_span (readlines source_text) _ _ Ha Hab Hb) as [Hslice Hlen].
  eexists. split; [by apply extract_functions_rows|]. simpl. split_and!.
  - apply elem_of_cons. right. apply list_elem_of_fmap.
    exists d. split.
    + unfold row, func_src. by rewrite Hslice.
    + apply elem_of_function_defs. eexists. split; [by apply elem_of_walk|done].
  - apply readlines_join. apply lines_ok_take, lines_ok_drop, readlines_ok.
  - by rewrite <- Hlen, Hslice.
Qed.

(** C8, amended.  The rows follow the header in the order of the
    breadth-first walk: the plain definitions at depth 0 of the tree, then
    those at depth 1, and so on, left to right within one depth. *)
Theorem rows_in_level_order (source_text : string) (tree : AST) :
  ast_parse source_text = Some tree →
  ∃ out,
    extract_functions ast_parse source_text = Some out ∧
    csv_rows out =
      header :: map (row (readlines source_text)) (function_defs (level_order tree)).
Proof.
  intros Hp. eexists. split; [by apply extract_functions_rows|].
  simpl. by rewrite walk_level_order.
Qed.

(** C10.  Every row after the header comes from a plain [FunctionDef]
    node of the tree, and there are as many such rows as plain definitions
    met by the walk; a file whose tree has no such node, whatever
    [AsyncFunctionDef] nodes it has, gets the header and nothing else. *)
Theorem only_plain_definitions_emit_rows (source_text : string) (tree : AST) :
  ast_parse source_text = Some tree →
  ∃ out,
    extract_functions ast_parse source_text = Some out ∧
    (∀ r, r ∈ csv_rows out →
       r = header ∨
       ∃ d children,
         subnode (Node (FunctionDef d) children) tree ∧
         r = row (readlines source_text) d) ∧
    length (csv_rows out) = S (length (function_defs (walk tree))) ∧
    ((∀ s d, subnode s tree → node_cls s ≠ FunctionDef d) →
       csv_rows out = [header] ∧ stdout out = []).
Proof.
  intros Hp. eexists. split; [by apply extract_functions_rows|]. simpl. split_and!.
  - intros r [->|Hr]%elem_of_cons; [by left|]. right.
    apply list_elem_of_fmap in Hr as (d & -> & Hd).
    apply elem_of_function_defs in Hd as ([c cs] & Hn & Hc). simpl in Hc. subst c.
    exists d, cs. split; [by apply elem_of_walk|done].
  - by rewrite length_map.
  - intros Hnone.
    assert (Hempty : function_defs (walk tree) = []).
    { destruct (function_defs (walk tree)) as [|d ds] eqn:E; [done|].
      assert (Hd : d ∈ function_defs (walk tree)) by (rewrite E; left).
      apply elem_of_function_defs in Hd as (n & Hn & Hc).
      apply elem_of_walk in Hn. by apply Hnone in Hc. }
    by rewrite Hempty.
Qed.

End ExtractClaims.

Lemma source_text_is_the_span_witness :
  let span := take 2 (drop 1 (Extract.readlines Examples.nested_text)) in
  ∃ out,
    Extract.extract_functions (fun _ => Some Examples.nested_tree) Examples.nested_text
      = Some out ∧
    [Extract.function_signature Examples.def_inner; Py.join "" span] ∈ Extract.csv_rows out ∧
    Extract.readlines (Py.join "" span) = span ∧
    Z.of_nat (length span) = 2%Z.
Proof.
  apply (source_text_is_the_span (fun _ => Some Examples.nested_tree)
           Examples.nested_text Examples.nested_tree Examples.def_inner
           [Examples.leaf; Examples.leaf]).
  - reflexivity.
  - eapply subnode_below; [|eapply subnode_below; [|apply subnode_here]].
    + simpl. left.
    + simpl. right. left.
  - simpl. lia.
  - simpl. lia.
  - vm_compute. discriminate.
Defined.

(** C8, as the specification states it, fails: for [nested_text] the rows
    come out as [a], [b], [inner], with start lines 1, 4, 2, while the
    definitions in document order are [a], [inner], [b]. *)
Lemma rows_not_in_document_order :
  (Extract.csv_rows <$>
     Extract.extract_functions (fun _ => Some Examples.nested_tree) Examples.nested_text)
  = Some (Extract.header ::
          map (Extract.row (Extract.readlines Examples.nested_text))
              [Examples.def_a; Examples.def_b; Examples.def_inner]) ∧
  map lineno [Examples.def_a; Examples.def_b; Examples.def_inner] = [1; 4; 2]%Z ∧
  function_defs (preorder Examples.nested_tree)
  = [Examples.def_a; Examples.def_inner; Examples.def_b] ∧
  map (Extract.row (Extract.readlines Examples.nested_text))
      [Examples.def_a; Examples.def_b; Examples.def_inner]
  ≠ map (Extract.row (Extract.readlines Examples.nested_text))
      (function_defs (preorder Examples.nested_tree)).
Proof.
  split_and!; [vm_compute; reflexivity..|].
  vm_compute. discriminate.
Qed.

Lemma rows_in_level_order_witness :
  ∃ out,
    Extract.extract_functions (fun _ => Some Examples.nested_tree) Examples.nested_text
      = Some out ∧
    Extract.csv_rows out =
      Extract.header ::
      map (Extract.row (Extract.readlines Examples.nested_text))
          (function_defs (level_order Examples.nested_tree)).
Proof.
  apply (rows_in_level_order (fun _ => Some Examples.nested_tree)
           Examples.nested_text Examples.nested_tree).
  reflexivity.
Defined.

Lemma only_plain_definitions_emit_rows_witness :
  ∃ out,
    Extract.extract_functions (fun _ => Some Examples.async_tree) Examples.async_text
      = Some out ∧
    (∀ r, r ∈ Extract.csv_rows out →
       r = Extract.header ∨
       ∃ d children,
         subnode (Node (FunctionDef d) children) Examples.async_tree ∧
         r = Extract.row (Extract.readlines Examples.async_text) d) ∧
    length (Extract.csv_rows out) = S (length (function_defs (walk Examples.async_tree))) ∧
    ((∀ s d, subnode s Examples.async_tree → node_cls s ≠ FunctionDef d) →
       Extract.csv_rows out = [Extract.header] ∧ Extract.stdout out = []).
Proof.
  apply (only_plain_definitions_emit_rows (fun _ => Some Examples.async_tree)
           Examples.async_text Examples.async_tree).
  reflexivity.
Defined.

(** * The claims about merging the graphs of the files *)

Section FoldUnion.

(** A fold whose every step adds to a set what depends on the item alone
    computes the union of the items' shares. *)
Context {St A X : Type} `{Countable X}.
Variable step : St → A → St.
Variable proj : St → gset X.
Variable share : A → gset X.
Hypothesis step_adds : ∀ st a, proj (step st a) = proj st ∪ share a.

Lemma fold_union (l : list A) (st : St) :
  proj (fold_left step l st) = proj st ∪ ⋃ (share <$> l).
Proof.
  revert st. induction l as [|a l IH]; intros st; simpl.
  - set_solver.
  - rewrite IH, step_adds. set_solver.
Qed.

Lemma fold_same_items (l l' : list A) (st : St) :
  (∀ a, a ∈ l ↔ a ∈ l') → proj (fold_left step l st) = proj (fold_left step l' st).
Proof.
  intros Hsame. rewrite !fold_union. f_equal. apply set_eq. intros x.
  rewrite !elem_of_union_list. split; intros (X' & HX & Hx); exists X'; split; try done;
    apply list_elem_of_fmap in HX as (a & -> & Ha); apply list_elem_of_fmap;
    exists a; split; try done; by apply Hsame.
Qed.

End FoldUnion.

Section FallbackClaims.

Import Fallback.

Variable read_file : string → option string.
Variable ast_parse : string → option AST.

Lemma analyze_file_node_set_functions st file :
  node_set (combined_function_graph (analyze_file read_file ast_parse st file)) =
  node_set (combined_function_graph st)
  ∪ node_set (combined_function_graph (analyze_file read_file ast_parse initial file)).
Proof.
  destruct (read_file file ≫= ast_parse) as [tree|] eqn:Hp.
  - destruct (analyze_file_combined read_file ast_parse st file tree Hp) as (Hn & _ & _).
    destruct (analyze_file_combined read_file ast_parse initial file tree Hp) as (Hn0 & _ & _).
    unfold node_set at 1 3. rewrite Hn, Hn0.
    fold (node_set (fold_left (λ g u, add_node u (unit_attrs (Py.basename file) u) g)
      (map name (function_defs (walk tree))) (combined_function_graph st))).
    fold (node_set (fold_left (λ g u, add_node u (unit_attrs (Py.basename file) u) g)
      (map name (function_defs (walk tree))) (combined_function_graph initial))).
    rewrite !add_units_node_set. set_solver.
  - rewrite !analyze_file_failed by done. set_solver.
Qed.

Lemma analyze_file_edges_functions st file :
  edges (combined_function_graph (analyze_file read_file ast_parse st file)) =
  edges (combined_function_graph st)
  ∪ edges (combined_function_graph (analyze_file read_file ast_parse initial file)).
Proof.
  destruct (read_file file ≫= ast_parse) as [tree|] eqn:Hp.
  - destruct (analyze_file_combined read_file ast_parse st file tree Hp) as (_ & He & _).
    destruct (analyze_file_combined read_file ast_parse initial file tree Hp) as (_ & He0 & _).
    rewrite He, He0. set_solver.
  - rewrite !analyze_file_failed by done. set_solver.
Qed.

Lemma analyze_file_node_set_classes st file :
  node_set (combined_class_graph (analyze_file read_file ast_parse st file)) =
  node_set (combined_class_graph st)
  ∪ node_set (combined_class_graph (analyze_file read_file ast_parse initial file)).
Proof.
  destruct (read_file file ≫= ast_parse) as [tree|] eqn:Hp.
  - destruct (analyze_file_combined read_file ast_parse st file tree Hp) as (_ & _ & Hc).
    destruct (analyze_file_combined read_file ast_parse initial file tree Hp) as (_ & _ & Hc0).
    rewrite Hc, Hc0, !add_units_node_set. set_solver.
  - rewrite !analyze_file_failed by done. set_solver.
Qed.

Lemma analyze_file_edges_classes st file :
  edges (combined_class_graph (analyze_file read_file ast_parse st file)) =
  edges (combined_class_graph st)
  ∪ edges (combined_class_graph (analyze_file read_file ast_parse initial file)).
Proof.
  destruct (read_file file ≫= ast_parse) as [tree|] eqn:Hp.
  - destruct (analyze_file_combined read_file ast_parse st file tree Hp) as (_ & _ & Hc).
    destruct (analyze_file_combined read_file ast_parse initial file tree Hp) as (_ & _ & Hc0).
    rewrite Hc, Hc0, !add_units_edges. set_solver.
  - rewrite !analyze_file_failed by done. set_solver.
Qed.

(** The node and edge sets of the combined graphs depend only on which
    files are analysed, not on their order or on how often each occurs. *)
Lemma combined_sets_same_files (files files' : list string) :
  (∀ f, f ∈ files ↔ f ∈ files') → combined_sets (analyze_python_file_structure read_file ast_parse files) = combined_sets (analyze_python_file_structure read_file ast_parse files').
Proof.
  intros Hsame. unfold combined_sets, analyze_python_file_structure, save_combined. simpl.
  f_equal; [f_equal; [f_equal|]|].
  - apply (fold_same_items _ (λ st, node_set (combined_function_graph st)) _
             analyze_file_node_set_functions _ _ _ Hsame).
  - apply (fold_same_items _ (λ st, edges (combined_function_graph st)) _
             analyze_file_edges_functions _ _ _ Hsame).
  - apply (fold_same_items _ (λ st, node_set (combined_class_graph st)) _
             analyze_file_node_set_classes _ _ _ Hsame).
  - apply (fold_same_items _ (λ st, edges (combined_class_graph st)) _
             analyze_file_edges_classes _ _ _ Hsame).
Qed.

(** C4.  At the level of node and edge sets, merging the graphs of the
    files into the combined graphs is idempotent (folding a file in a
    second time, or a whole list of files a second time, changes nothing)
    and commutative (any order of the files gives the same sets). *)
Theorem merge_idempotent_and_commutative :
  (∀ files file,
     combined_sets (analyze_python_file_structure read_file ast_parse (files ++ [file; file])) = combined_sets (analyze_python_file_structure read_file ast_parse (files ++ [file]))) ∧
  (∀ files, combined_sets (analyze_python_file_structure read_file ast_parse (files ++ files)) = combined_sets (analyze_python_file_structure read_file ast_parse files)) ∧
  (∀ files files', files ≡ₚ files' → combined_sets (analyze_python_file_structure read_file ast_parse files) = combined_sets (analyze_python_file_structure read_file ast_parse files')).
Proof.
  split_and!.
  - intros files file. apply combined_sets_same_files. intros f.
    rewrite !elem_of_app, !elem_of_cons. naive_solver.
  - intros files. apply combined_sets_same_files. intros f.
    rewrite elem_of_app. naive_solver.
  - intros files files' Hperm. apply combined_sets_same_files. intros f.
    by rewrite Hperm.
Qed.


Lemma combined_function_graph_after_file st file tree n :
  read_file file ≫= ast_parse = Some tree →
  let st' := analyze_file read_file ast_parse st file in
  (n ∈ map name (function_defs (walk tree)) →
     node_attr (combined_function_graph st') n "label" = Some n ∧
     node_attr (combined_function_graph st') n "title"
       = Some (Py.basename file +:+ ":" +:+ n) ∧
     node_attr (combined_function_graph st') n "group" = Some (Py.basename file)) ∧
  (n ∉ map name (function_defs (walk tree)) →
     nodes (combined_function_graph st') !! n = nodes (combined_function_graph st) !! n).
Proof.
  intros Hp. simpl.
  destruct (analyze_file_combined read_file ast_parse st file tree Hp) as (Hn & _ & _).
  unfold node_attr. rewrite Hn. split.
  - intros Hin. split_and!; apply add_units_attr; done.
  - intros Hout. by apply add_units_other.
Qed.

Lemma combined_class_graph_after_file st file tree n :
  read_file file ≫= ast_parse = Some tree →
  let st' := analyze_file read_file ast_parse st file in
  (n ∈ class_names (walk tree) →
     node_attr (combined_class_graph st') n "label" = Some n ∧
     node_attr (combined_class_graph st') n "title"
       = Some (Py.basename file +:+ ":" +:+ n) ∧
     node_attr (combined_class_graph st') n "group" = Some (Py.basename file)) ∧
  (n ∉ class_names (walk tree) →
     nodes (combined_class_graph st') !! n = nodes (combined_class_graph st) !! n).
Proof.
  intros Hp. simpl.
  destruct (analyze_file_combined read_file ast_parse st file tree Hp) as (_ & _ & Hc).
  rewrite Hc. split.
  - intros Hin. split_and!; apply add_units_attr; done.
  - intros Hout. by apply add_units_other.
Qed.

Lemma elem_of_class_names (c : string) (l : list AST) :
  c ∈ class_names l ↔ ∃ n, n ∈ l ∧ node_cls n = ClassDef c.
Proof.
  unfold class_names. rewrite list_elem_of_In, in_flat_map. split.
  - intros (n & Hn & Hc). exists n. split; [by apply list_elem_of_In|].
    destruct (node_cls n); simpl in Hc; try done. destruct Hc as [->|[]]. done.
  - intros (n & Hn & Hc). exists n. split; [by apply list_elem_of_In|].
    rewrite Hc. by left.
Qed.

(** C5, amended.  The metadata seen last wins: once a file that defines a
    function (or a class) has been folded in, the node of that name in the
    combined graph carries the title and the group of this file, whatever
    it carried before; the label, which is the name itself, is the same at
    every insertion.  A file that does not define the name leaves the
    node's metadata as it was. *)
Theorem last_seen_metadata_wins (st : analysis) (file : string) (tree : AST) :
  read_file file ≫= ast_parse = Some tree →
  let st' := analyze_file read_file ast_parse st file in
  (∀ d children,
     subnode (Node (FunctionDef d) children) tree →
     node_attr (combined_function_graph st') (name d) "label" = Some (name d) ∧
     node_attr (combined_function_graph st') (name d) "title"
       = Some (Py.basename file +:+ ":" +:+ name d) ∧
     node_attr (combined_function_graph st') (name d) "group"
       = Some (Py.basename file)) ∧
  (∀ c children,
     subnode (Node (ClassDef c) children) tree →
     node_attr (combined_class_graph st') c "label" = Some c ∧
     node_attr (combined_class_graph st') c "title"
       = Some (Py.basename file +:+ ":" +:+ c) ∧
     node_attr (combined_class_graph st') c "group" = Some (Py.basename file)) ∧
  (∀ n,
     (∀ d children, subnode (Node (FunctionDef d) children) tree → name d ≠ n) →
     nodes (combined_function_graph st') !! n = nodes (combined_function_graph st) !! n).
Proof.
  intros Hp. simpl. split_and!.
  - intros d cs Hsub.
    apply (combined_function_graph_after_file st file tree (name d) Hp).
    apply list_elem_of_fmap. exists d. split; [done|].
    apply elem_of_function_defs. eexists. split; [by apply elem_of_walk|done].
  - intros c cs Hsub.
    apply (combined_class_graph_after_file st file tree c Hp).
    apply elem_of_class_names. eexists. split; [by apply elem_of_walk|done].
  - intros n Hnone.
    apply (combined_function_graph_after_file st file tree n Hp).
    intros (d & -> & Hd)%list_elem_of_fmap.
    apply elem_of_function_defs in Hd as ([c cs] & Hn & Hc). simpl in Hc. subst c.
    apply elem_of_walk in Hn. by apply (Hnone d cs).
Qed.

(** The node of a name in the combined function graph, when there is
    one, carries the metadata of a single file that defines the name. *)
Lemma combined_function_graph_node (files : list string) (n : string) :
  n ∈ node_set (combined_function_graph
                  (fold_left (analyze_file read_file ast_parse) files initial)) →
  ∃ file tree,
    file ∈ files ∧ read_file file ≫= ast_parse = Some tree ∧
    n ∈ map name (function_defs (walk tree)) ∧
    let G := combined_function_graph
               (fold_left (analyze_file read_file ast_parse) files initial) in
    node_attr G n "label" = Some n ∧
    node_attr G n "title" = Some (Py.basename file +:+ ":" +:+ n) ∧
    node_attr G n "group" = Some (Py.basename file).
Proof.
  induction files as [|file files IH] using rev_ind; simpl.
  - unfold node_set. simpl. rewrite dom_empty_L. by intros ?%elem_of_empty.
  - rewrite fold_left_app. simpl.
    set (st := fold_left (analyze_file read_file ast_parse) files initial) in *.
    destruct (read_file file ≫= ast_parse) as [tree|] eqn:Hp.
    + destruct (combined_function_graph_after_file st file tree n Hp) as [Hin Hout].
      destruct (decide (n ∈ map name (function_defs (walk tree)))) as [Hn|Hn].
      * intros _. exists file, tree. split_and!; try done; try by apply Hin.
        apply elem_of_app. right. by left.
      * intros Hdom.
        unfold node_set in Hdom. apply elem_of_dom in Hdom. rewrite (Hout Hn) in Hdom.
        apply elem_of_dom in Hdom.
        destruct (IH Hdom) as (f & t & Hf & Ht & Hnt & Hl & Htt & Hg).
        exists f, t. unfold node_attr in *. rewrite (Hout Hn).
        split_and!; try done. apply elem_of_app. by left.
    + rewrite analyze_file_failed by done. intros Hdom.
      destruct (IH Hdom) as (f & t & Hf & Ht & Hnt & Hl & Htt & Hg).
      exists f, t. split_and!; try done. apply elem_of_app. by left.
Qed.

(** The nodes of the combined function graph are the short names of the
    functions defined in the files that could be read and parsed. *)
Lemma combined_function_graph_node_set (files : list string) (n : string) :
  n ∈ node_set (combined_function_graph
                  (fold_left (analyze_file read_file ast_parse) files initial)) ↔
  ∃ file tree,
    file ∈ files ∧ read_file file ≫= ast_parse = Some tree ∧
    n ∈ map name (function_defs (walk tree)).
Proof.
  split.
  - intros (f & t & ? & ? & ? & _)%combined_function_graph_node. eauto.
  - intros (file & tree & Hf & Hp & Hn).
    rewrite (fold_union _ (λ st, node_set (combined_function_graph st)) _
               analyze_file_node_set_functions).
    apply elem_of_union. right. apply elem_of_union_list.
    eexists. split; [apply list_elem_of_fmap; by exists file|].
    destruct (analyze_file_combined read_file ast_parse initial file tree Hp) as (Hnodes & _ & _).
    unfold node_set. rewrite Hnodes.
    fold (node_set (fold_left (λ g u, add_node u (unit_attrs (Py.basename file) u) g)
      (map name (function_defs (walk tree))) (combined_function_graph initial))).
    rewrite add_units_node_set. apply elem_of_union. left.
    by apply elem_of_list_to_set.
Qed.

(** C9.  The combined function graph of the fallback analysis is keyed by
    the short name: when two files each define a top-level function of
    the same name, the graph has one node for that name, with one
    attribute dict, whose label is the name and whose title and group are
    those of a single one of the files that define the name. *)
Theorem combined_function_graph_keyed_by_short_name
    (files : list string) (file1 file2 : string) (tree1 tree2 : AST)
    (d1 d2 : function_def) (children1 children2 : list AST) :
  file1 ∈ files → file2 ∈ files →
  read_file file1 ≫= ast_parse = Some tree1 →
  read_file file2 ≫= ast_parse = Some tree2 →
  Node (FunctionDef d1) children1 ∈ iter_child_nodes tree1 →
  Node (FunctionDef d2) children2 ∈ iter_child_nodes tree2 →
  name d1 = name d2 →
  let G := combined_function_graph
             (analyze_python_file_structure read_file ast_parse files) in
  length (filter (λ kv, kv.1 = name d1) (map_to_list (nodes G))) = 1%nat ∧
  ∃ attr file tree,
    nodes G !! name d1 = Some attr ∧
    file ∈ files ∧ read_file file ≫= ast_parse = Some tree ∧
    name d1 ∈ map name (function_defs (walk tree)) ∧
    attr !! "label" = Some (name d1) ∧
    attr !! "title" = Some (Py.basename file +:+ ":" +:+ name d1) ∧
    attr !! "group" = Some (Py.basename file).
Proof.
  intros Hf1 _ Hp1 _ Hc1 _ _. simpl.
  set (G := combined_function_graph
              (fold_left (analyze_file read_file ast_parse) files initial)).
  assert (Hdom : name d1 ∈ node_set G).
  { apply combined_function_graph_node_set. exists file1, tree1. split_and!; try done.
    apply list_elem_of_fmap. exists d1. split; [done|].
    apply elem_of_function_defs. exists (Node (FunctionDef d1) children1).
    split; [|done].
    apply elem_of_walk. eapply subnode_below; [done|constructor]. }
  destruct (combined_function_graph_node files (name d1) Hdom)
    as (file & tree & Hf & Hp & Hn & Hl & Ht & Hg).
  fold G in Hl, Ht, Hg. unfold node_attr in Hl, Ht, Hg.
  destruct (nodes G !! name d1) as [attr|] eqn:Hattr; [|done]. simpl in Hl, Ht, Hg.
  split.
  - pose proof (NoDup_fst_map_to_list (nodes G)) as Hnd.
    assert (Hin : (name d1, attr) ∈ map_to_list (nodes G))
      by by apply elem_of_map_to_list.
    revert Hnd Hin. generalize (map_to_list (nodes G)). clear.
    intros l. induction l as [|[k v] l IH]; intros Hnd Hin.
    + by apply elem_of_nil in Hin.
    + rewrite fmap_cons in Hnd. apply NoDup_cons in Hnd as [Hk Hnd].
      rewrite filter_cons. simpl. case_decide as Hkn.
      * subst k. simpl. f_equal.
        destruct (filter _ l) as [|[k' v'] r] eqn:E; [done|].
        exfalso. apply Hk.
        assert (Hmem : (k', v') ∈ filter (λ kv : string * gmap string string,
                         kv.1 = name d1) l) by (rewrite E; left).
        apply list_elem_of_filter in Hmem as [Hk' Hmem]. simpl in Hk'. subst k'.
        apply list_elem_of_fmap. exists (name d1, v'). done.
      * apply IH; [done|]. apply elem_of_cons in Hin as [[= ? ?]|?]; [congruence|done].
  - exists attr, file, tree. done.
Qed.

End FallbackClaims.

(** ** The merge claims on two files that both define [foo] *)

Lemma merge_idempotent_and_commutative_witness :
  combined_sets (Fallback.analyze_python_file_structure Examples.read_file
                   Examples.ast_parse [Examples.file_a; Examples.file_b])
  = combined_sets (Fallback.analyze_python_file_structure Examples.read_file
                     Examples.ast_parse [Examples.file_b; Examples.file_a]).
Proof.
  apply (proj2 (proj2 (merge_idempotent_and_commutative
                         Examples.read_file Examples.ast_parse))).
  apply perm_swap.
Defined.

(** C5, as the specification states it, fails: [foo] enters the combined
    graph with the title and group of [a.py]; folding in [b.py], which
    also defines [foo], replaces both. *)
Lemma first_seen_metadata_overwritten :
  let st1 := Fallback.analyze_file Examples.read_file Examples.ast_parse
               Fallback.initial Examples.file_a in
  let st2 := Fallback.analyze_file Examples.read_file Examples.ast_parse
               st1 Examples.file_b in
  node_attr (Fallback.combined_function_graph st1) "foo" "title" = Some "a.py:foo" ∧
  node_attr (Fallback.combined_function_graph st1) "foo" "group" = Some "a.py" ∧
  node_attr (Fallback.combined_function_graph st2) "foo" "title" = Some "b.py:foo" ∧
  node_attr (Fallback.combined_function_graph st2) "foo" "group" = Some "b.py" ∧
  nodes (Fallback.combined_function_graph st2) !! "foo"
  ≠ nodes (Fallback.combined_function_graph st1) !! "foo".
Proof.
  split_and!; [vm_compute; reflexivity..|].
  intros Heq.
  apply (f_equal (λ o : option (gmap string string), o ≫= λ attr, attr !! "group")) in Heq.
  vm_compute in Heq. discriminate.
Qed.

Lemma last_seen_metadata_wins_witness :
  let st := Fallback.analyze_file Examples.read_file Examples.ast_parse
              Fallback.initial Examples.file_a in
  let st' := Fallback.analyze_file Examples.read_file Examples.ast_parse
               st Examples.file_b in
  node_attr (Fallback.combined_function_graph st') "foo" "label" = Some "foo" ∧
  node_attr (Fallback.combined_function_graph st') "foo" "title" = Some "b.py:foo" ∧
  node_attr (Fallback.combined_function_graph st') "foo" "group" = Some "b.py".
Proof.
  intros st st'.
  apply (proj1 (last_seen_metadata_wins Examples.read_file Examples.ast_parse
                  st Examples.file_b Examples.tree_b eq_refl)
           (mk_function_def "foo" Examples.no_arguments 1 1)
           [Examples.leaf; Examples.leaf]).
  eapply subnode_below; [|apply subnode_here]. simpl. left.
Defined.

Lemma combined_function_graph_keyed_by_short_name_witness :
  let G := Fallback.combined_function_graph
             (Fallback.analyze_python_file_structure Examples.read_file
                Examples.ast_parse [Examples.file_a; Examples.file_b]) in
  length (filter (λ kv, kv.1 = "foo") (map_to_list (nodes G))) = 1%nat ∧
  ∃ attr file tree,
    nodes G !! "foo" = Some attr ∧
    file ∈ [Examples.file_a; Examples.file_b] ∧
    Examples.read_file file ≫= Examples.ast_parse = Some tree ∧
    "foo" ∈ map name (function_defs (walk tree)) ∧
    attr !! "label" = Some "foo" ∧
    attr !! "title" = Some (Py.basename file +:+ ":" +:+ "foo") ∧
    attr !! "group" = Some (Py.basename file).
Proof.
  apply (combined_function_graph_keyed_by_short_name
           Examples.read_file Examples.ast_parse
           [Examples.file_a; Examples.file_b] Examples.file_a Examples.file_b
           Examples.tree_a Examples.tree_b
           (mk_function_def "foo" Examples.no_arguments 1 1)
           (mk_function_def "foo" Examples.no_arguments 1 1)
           [Examples.leaf; Examples.leaf] [Examples.leaf; Examples.leaf]).
  - left.
  - right. left.
  - reflexivity.
  - reflexivity.
  - simpl. left.
  - simpl. left.
  - reflexivity.
Defined.

(** * Further properties *)

(** ** Splitting and joining dotted names *)

Section SplitJoin.

Variable sep : ascii.

Lemma append_cons (c : ascii) (s t : string) : String c s +:+ t = String c (s +:+ t).
Proof. reflexivity. Qed.

Lemma append_assoc (a b c : string) : (a +:+ b) +:+ c = a +:+ (b +:+ c).
Proof.
  induction a as [|x a IH]; [done|]. rewrite !append_cons. by rewrite IH.
Qed.

Lemma split_not_nil (s : string) : Py.split sep s ≠ [].
Proof.
  destruct s as [|c s]; simpl; [done|].
  destruct (Ascii.eqb c sep); [done|]. by destruct (Py.split sep s).
Qed.

Lemma join_cons_cons (x y : string) (l : list string) :
  Py.join (String sep "") (x :: y :: l)
  = x +:+ String sep (Py.join (String sep "") (y :: l)).
Proof. reflexivity. Qed.

(** Joining what [split] returned gives the string back. *)
Lemma join_split (s : string) : Py.join (String sep "") (Py.split sep s) = s.
Proof.
  induction s as [|c s IH]; [done|]. simpl.
  destruct (Ascii.eqb c sep) eqn:Hc.
  - apply Ascii.eqb_eq in Hc as ->.
    pose proof (split_not_nil s) as Hne.
    destruct (Py.split sep s) as [|p ps]; [done|].
    rewrite join_cons_cons, IH. reflexivity.
  - pose proof (split_not_nil s) as Hne.
    destruct (Py.split sep s) as [|p ps]; [done|].
    destruct ps as [|q ps].
    + change (Py.join (String sep "") [String c p]) with (String c p).
      change (Py.join (String sep "") [p]) with p in IH. by rewrite IH.
    + rewrite join_cons_cons in *. rewrite append_cons. by rewrite IH.
Qed.

Lemma join_snoc (l : list string) (x : string) :
  l ≠ [] →
  Py.join (String sep "") (l ++ [x]) = Py.join (String sep "") l +:+ String sep x.
Proof.
  induction l as [|y l IH]; [done|]. intros _.
  destruct l as [|z l].
  - reflexivity.
  - change ((y :: z :: l) ++ [x]) with (y :: (z :: l) ++ [x]).
    destruct ((z :: l) ++ [x]) as [|w r] eqn:E; [done|].
    rewrite (join_cons_cons y w r), IH by done. rewrite join_cons_cons.
    rewrite append_assoc, append_cons. reflexivity.
Qed.

(** The segments [split] returns do not contain the separator. *)
Lemma split_segments_free (s : string) :
  Forall (fun p => contains sep p = false) (Py.split sep s).
Proof.
  induction s as [|c s IH]; simpl; [by repeat constructor|].
  destruct (Ascii.eqb c sep) eqn:Hc; [by constructor|].
  pose proof (split_not_nil s) as Hne.
  destruct (Py.split sep s) as [|p ps]; [done|].
  apply Forall_cons in IH as [Hp Hps]. constructor; [|done].
  simpl. by rewrite Hc.
Qed.

Lemma split_free (x : string) : contains sep x = false → Py.split sep x = [x].
Proof.
  induction x as [|c x IH]; [done|]. simpl.
  intros [Hc Hx]%orb_false_iff. rewrite Hc, IH; done.
Qed.

Lemma split_free_app (x t : string) :
  contains sep x = false →
  Py.split sep (x +:+ String sep t) = x :: Py.split sep t.
Proof.
  induction x as [|c x IH]; intros Hx.
  - simpl. by rewrite Ascii.eqb_refl.
  - simpl in Hx. apply orb_false_iff in Hx as [Hc Hx].
    rewrite append_cons. simpl. rewrite Hc, IH; done.
Qed.

(** Splitting the join of separator-free segments gives the segments
    back. *)
Lemma split_join (l : list string) :
  l ≠ [] → Forall (fun p => contains sep p = false) l →
  Py.split sep (Py.join (String sep "") l) = l.
Proof.
  induction l as [|x l IH]; [done|]. intros _ [Hx Hl]%Forall_cons.
  destruct l as [|y l].
  - by apply split_free.
  - rewrite join_cons_cons, split_free_app, IH; done.
Qed.

End SplitJoin.

Lemma but_last_snoc (l : list string) :
  l ≠ [] → l = Py.but_last l ++ [Py.last_item l].
Proof. intros Hl. by apply app_removelast_last. Qed.

Lemma but_last_length (l : list string) : length (Py.but_last l) = pred (length l).
Proof.
  induction l as [|x l IH]; [done|]. destruct l as [|y l]; [done|].
  change (Py.but_last (x :: y :: l)) with (x :: Py.but_last (y :: l)).
  rewrite (length_cons x (Py.but_last (y :: l))), IH. reflexivity.
Qed.

Lemma but_last_free (c : ascii) (l : list string) :
  Forall (fun p => contains c p = false) l →
  Forall (fun p => contains c p = false) (Py.but_last l).
Proof.
  induction l as [|x l IH]; [done|]. intros [Hx Hl]%Forall_cons.
  destruct l as [|y l]; [constructor|].
  change (Py.but_last (x :: y :: l)) with (x :: Py.but_last (y :: l)).
  constructor; [done|by apply IH].
Qed.

(** A dotted name is its group, a dot and its label; a name without a dot
    is its own label and has the empty group. *)
Lemma group_dot_label (fqn : string) :
  let parts := Py.split "." fqn in
  (length parts = 1%nat ∧
   Py.join "." (Py.but_last parts) = "" ∧ Py.last_item parts = fqn) ∨
  ((2 ≤ length parts)%nat ∧
   fqn = Py.join "." (Py.but_last parts) +:+ "." +:+ Py.last_item parts).
Proof.
  simpl. pose proof (split_not_nil "." fqn) as Hne.
  pose proof (join_split "." fqn) as Hj.
  destruct (Py.split "." fqn) as [|p ps] eqn:E; [done|].
  destruct ps as [|q ps].
  - left. split_and!; [done..|]. simpl in *. done.
  - right. split; [simpl; lia|].
    rewrite <- Hj at 1.
    rewrite (but_last_snoc (p :: q :: ps)) at 1 by done.
    rewrite join_snoc; [done|].
    change (Py.but_last (p :: q :: ps)) with (p :: Py.but_last (q :: ps)). done.
Qed.

(** ** The nodes of the function-level graph *)

Lemma well_labelled_empty : well_labelled empty_graph.
Proof. intros n attr H. simpl in H. by rewrite lookup_empty in H. Qed.

Lemma well_labelled_add_node (n : string) (G : DiGraph) :
  well_labelled G → well_labelled (add_node n (fqn_attrs n) G).
Proof.
  intros HG m attr. unfold add_node. simpl.
  destruct (decide (n = m)) as [->|Hne].
  - rewrite lookup_insert_eq. intros [= <-].
    destruct (nodes G !! m) as [old|] eqn:Hold; simpl.
    + rewrite (HG m old Hold). apply (idemp (∪)).
    + apply (right_id ∅ (∪)).
  - rewrite lookup_insert_ne by done. apply HG.
Qed.

Section FunctionGraphNodes.

Variable repo_dir : string.

Lemma function_calls_inner_step func G c :
  func ∈ node_set G → in_corpus repo_dir c = true →
  nodes (function_calls_inner repo_dir func G c) = nodes (add_node c (fqn_attrs c) G).
Proof.
  intros Hf Hc. unfold function_calls_inner. rewrite Hc. cbn [negb].
  apply nodes_add_edge_known; rewrite node_set_add_node; set_solver.
Qed.

Lemma function_calls_inner_nodes func calls G :
  func ∈ node_set G → well_labelled G →
  well_labelled (fold_left (function_calls_inner repo_dir func) calls G) ∧
  ∀ n, n ∈ node_set (fold_left (function_calls_inner repo_dir func) calls G) ↔
       n ∈ node_set G ∨ (n ∈ calls ∧ in_corpus repo_dir n = true).
Proof.
  revert G. induction calls as [|c calls IH]; intros G Hf HG.
  - simpl. split; [done|]. intros n. split; [auto|].
    intros [?|[[]%elem_of_nil _]]; done.
  - change (fold_left (function_calls_inner repo_dir func) (c :: calls) G)
      with (fold_left (function_calls_inner repo_dir func) calls
              (function_calls_inner repo_dir func G c)).
    destruct (in_corpus repo_dir c) eqn:Hc.
    + pose proof (function_calls_inner_step func G c Hf Hc) as Hstep.
      destruct (IH (function_calls_inner repo_dir func G c)) as [Hwl Hns].
      * unfold node_set. rewrite Hstep. fold (node_set (add_node c (fqn_attrs c) G)).
        rewrite node_set_add_node. set_solver.
      * intros n attr. rewrite Hstep. by apply well_labelled_add_node.
      * split; [done|]. intros n. rewrite Hns.
        unfold node_set at 1. rewrite Hstep.
        fold (node_set (add_node c (fqn_attrs c) G)).
        rewrite node_set_add_node, elem_of_union, elem_of_singleton, elem_of_cons.
        split; [|intros [?|[[->|?] ?]]; auto]. intros [[->|?]|[? ?]]; auto.
    + assert (Hid : function_calls_inner repo_dir func G c = G).
      { unfold function_calls_inner. by rewrite Hc. }
      rewrite Hid. destruct (IH G Hf HG) as [Hwl Hns].
      split; [done|]. intros n. rewrite Hns, elem_of_cons.
      split; [intros [?|[? ?]]; auto|]. intros [?|[[->|?] ?]]; auto. congruence.
Qed.

Lemma function_calls_outer_nodes data G :
  well_labelled G →
  well_labelled (fold_left (function_calls_outer repo_dir) data G) ∧
  ∀ n, n ∈ node_set (fold_left (function_calls_outer repo_dir) data G) ↔
       n ∈ node_set G ∨
       (in_corpus repo_dir n = true ∧
        ((∃ calls, (n, calls) ∈ data) ∨
         (∃ func calls, (func, calls) ∈ data ∧ n ∈ calls ∧
                        in_corpus repo_dir func = true))).
Proof.
  revert G. induction data as [|[f cs] data IH]; intros G HG.
  - simpl. split; [done|]. intros n. split; [auto|].
    intros [?|[_ [[? []%elem_of_nil]|(? & ? & []%elem_of_nil & _)]]]; done.
  - change (fold_left (function_calls_outer repo_dir) ((f, cs) :: data) G)
      with (fold_left (function_calls_outer repo_dir) data
              (function_calls_outer repo_dir G (f, cs))).
    destruct (in_corpus repo_dir f) eqn:Hf.
    + assert (Hstep : function_calls_outer repo_dir G (f, cs) =
        fold_left (function_calls_inner repo_dir f) cs (add_node f (fqn_attrs f) G)).
      { unfold function_calls_outer. by rewrite Hf. }
      destruct (function_calls_inner_nodes f cs (add_node f (fqn_attrs f) G))
        as [Hwl1 Hns1].
      { rewrite node_set_add_node. set_solver. }
      { by apply well_labelled_add_node. }
      rewrite Hstep. destruct (IH _ Hwl1) as [Hwl Hns]. split; [done|].
      intros n. rewrite Hns, Hns1, node_set_add_node, elem_of_union, elem_of_singleton.
      split.
      * intros [[[->|?]|[Hn Hc]]|(Hc & [[calls Hin]|(func & calls & Hin & Hn & Hfc)])];
          auto.
        -- right. split; [done|]. left. exists cs. left.
        -- right. split; [done|]. right. exists f, cs. split_and!; try done. left.
        -- right. split; [done|]. left. exists calls. by right.
        -- right. split; [done|]. right. exists func, calls. split_and!; try done.
           by right.
      * intros [?|(Hc & [[calls Hin]|(func & calls & Hin & Hn & Hfc)])]; auto.
        -- apply elem_of_cons in Hin as [[= -> ->]|Hin]; [auto|].
           right. split; [done|]. left. by exists calls.
        -- apply elem_of_cons in Hin as [[= -> ->]|Hin]; [auto|].
           right. split; [done|]. right. by exists func, calls.
    + assert (Hid : function_calls_outer repo_dir G (f, cs) = G).
      { unfold function_calls_outer. by rewrite Hf. }
      rewrite Hid. destruct (IH G HG) as [Hwl Hns]. split; [done|].
      intros n. rewrite Hns. split.
      * intros [?|(Hc & [[calls Hin]|(func & calls & Hin & Hn & Hfc)])]; auto.
        -- right. split; [done|]. left. exists calls. by right.
        -- right. split; [done|]. right. exists func, calls. split_and!; try done.
           by right.
      * intros [?|(Hc & [[calls Hin]|(func & calls & Hin & Hn & Hfc)])]; auto.
        -- apply elem_of_cons in Hin as [[= -> ->]|Hin]; [congruence|].
           right. split; [done|]. left. by exists calls.
        -- apply elem_of_cons in Hin as [[= -> ->]|Hin]; [congruence|].
           right. split; [done|]. right. by exists func, calls.
Qed.

Lemma extract_function_calls_well_labelled data :
  well_labelled (extract_function_calls repo_dir data).
Proof. apply function_calls_outer_nodes, well_labelled_empty. Qed.

Lemma extract_function_calls_node_set data n :
  n ∈ node_set (extract_function_calls repo_dir data) ↔
  in_corpus repo_dir n = true ∧
  ((∃ calls, (n, calls) ∈ data) ∨
   (∃ func calls, (func, calls) ∈ data ∧ n ∈ calls ∧ in_corpus repo_dir func = true)).
Proof.
  unfold extract_function_calls.
  destruct (function_calls_outer_nodes data empty_graph well_labelled_empty) as [_ Hns].
  rewrite Hns. unfold node_set. simpl. rewrite dom_empty_L.
  split; [intros [[]%elem_of_empty|?]; done|auto].
Qed.

End FunctionGraphNodes.

(** ** The nodes of the class-level graph *)

(** The attributes the first pass gives a class are those derived from the
    class name, one segment above the method. *)
Lemma class_attrs_from_name (func : string) :
  let parts := Py.split "." func in
  (3 ≤ length parts)%nat →
  node_attrs (Py.last_item (Py.but_last parts))
             (Py.join "." (Py.but_last parts))
             (Py.join "." (Py.but_last (Py.but_last parts)))
  = fqn_attrs (Py.join "." (Py.but_last parts)).
Proof.
  simpl. intros Hlen. unfold fqn_attrs.
  rewrite (split_join "." (Py.but_last (Py.split "." func))); [done| |].
  - intros Hnil. apply (f_equal length) in Hnil.
    rewrite but_last_length in Hnil. simpl in Hnil. lia.
  - apply but_last_free, split_segments_free.
Qed.

Section ClassGraphNodes.

Variable repo_dir : string.

Lemma class_calls_first_step G m k :
  class_calls_first repo_dir (G, m) k =
  let class_name := Py.join "." (Py.but_last (Py.split "." k)) in
  if in_corpus repo_dir k && bool_decide (3 ≤ length (Py.split "." k))%nat then
    (if has_node class_name G then G
     else add_node class_name (fqn_attrs class_name) G,
     <[k := class_name]> m)
  else (G, m).
Proof.
  unfold class_calls_first. cbn zeta.
  destruct (in_corpus repo_dir k); cbn [negb andb]; [|done].
  case_bool_decide as Hlen; [|done].
  destruct (has_node _ G); cbn [negb]; [done|].
  pose proof (class_attrs_from_name k Hlen) as Hattrs. simpl in Hattrs.
  by rewrite Hattrs.
Qed.

Lemma class_calls_first_nodes keys G m :
  well_labelled G →
  (∀ f c, m !! f = Some c → c ∈ node_set G) →
  well_labelled (fold_left (class_calls_first repo_dir) keys (G, m)).1 ∧
  (∀ f c, (fold_left (class_calls_first repo_dir) keys (G, m)).2 !! f = Some c →
          c ∈ node_set (fold_left (class_calls_first repo_dir) keys (G, m)).1) ∧
  ∀ X, X ∈ node_set (fold_left (class_calls_first repo_dir) keys (G, m)).1 ↔
       X ∈ node_set G ∨
       ∃ f, f ∈ keys ∧ in_corpus repo_dir f = true ∧ owner f = Some X.
Proof.
  revert G m. induction keys as [|k keys IH]; intros G m HG Hm.
  - simpl. split_and!; [done..|]. intros X. split; [auto|].
    intros [?|(? & []%elem_of_nil & _)]; done.
  - change (fold_left (class_calls_first repo_dir) (k :: keys) (G, m))
      with (fold_left (class_calls_first repo_dir) keys
              (class_calls_first repo_dir (G, m) k)).
    assert (Hskip : ∀ X,
      ¬ (in_corpus repo_dir k = true ∧ is_Some (owner k)) →
      (X ∈ node_set G ∨ ∃ f, f ∈ keys ∧ in_corpus repo_dir f = true ∧ owner f = Some X) ↔
      (X ∈ node_set G ∨
       ∃ f, f ∈ k :: keys ∧ in_corpus repo_dir f = true ∧ owner f = Some X)).
    { intros X Hno. split.
      - intros [?|(f & ? & ? & ?)]; [auto|]. right. exists f. rewrite elem_of_cons. auto.
      - intros [?|(f & [->|?]%elem_of_cons & ? & Ho)]; [auto| |eauto].
        exfalso. apply Hno. split; [done|]. by rewrite Ho. }
    rewrite class_calls_first_step. cbn zeta.
    set (class_name := Py.join "." (Py.but_last (Py.split "." k))).
    destruct (in_corpus repo_dir k) eqn:Hk; cbn [andb].
    + case_bool_decide as Hlen.
      * assert (Hown : owner k = Some class_name).
        { unfold owner. by rewrite bool_decide_eq_true_2. }
        assert (Hadd : ∀ G', node_set G' = {[ class_name ]} ∪ node_set G →
          ∀ X, (X ∈ node_set G' ∨
                ∃ f, f ∈ keys ∧ in_corpus repo_dir f = true ∧ owner f = Some X) ↔
               (X ∈ node_set G ∨
                ∃ f, f ∈ k :: keys ∧ in_corpus repo_dir f = true ∧ owner f = Some X)).
        { intros G' HG' X. rewrite HG', elem_of_union, elem_of_singleton. split.
          - intros [[->|?]|(f & ? & ? & ?)]; [|auto|].
            + right. exists k. rewrite elem_of_cons. auto.
            + right. exists f. rewrite elem_of_cons. auto.
          - intros [?|(f & [->|?]%elem_of_cons & ? & Ho)]; [auto| |eauto].
            left. left. congruence. }
        destruct (has_node class_name G) eqn:Hhas.
        -- assert (Hin : class_name ∈ node_set G).
           { unfold has_node in Hhas. apply bool_decide_eq_true in Hhas.
             by apply elem_of_dom. }
           destruct (IH G (<[k := class_name]> m) HG) as (Hwl & Hmap & Hns).
           { intros f c. destruct (decide (k = f)) as [->|Hne].
             - rewrite lookup_insert_eq. by intros [= <-].
             - rewrite lookup_insert_ne by done. apply Hm. }
           split_and!; [done..|]. intros X. rewrite Hns.
           apply (Hadd G). set_solver.
        -- destruct (IH (add_node class_name (fqn_attrs class_name) G)
                        (<[k := class_name]> m)) as (Hwl & Hmap & Hns).
           { by apply well_labelled_add_node. }
           { intros f c. rewrite node_set_add_node.
             destruct (decide (k = f)) as [->|Hne].
             - rewrite lookup_insert_eq. intros [= <-]. set_solver.
             - rewrite lookup_insert_ne by done. intros Hf%Hm. set_solver. }
           split_and!; [done..|]. intros X. rewrite Hns.
           apply Hadd. apply node_set_add_node.
      * destruct (IH G m HG Hm) as (Hwl & Hmap & Hns).
        split_and!; [done..|]. intros X. rewrite Hns. apply Hskip.
        intros [_ [c Hc]]. unfold owner in Hc. by rewrite bool_decide_eq_false_2 in Hc.
    + destruct (IH G m HG Hm) as (Hwl & Hmap & Hns).
      split_and!; [done..|]. intros X. rewrite Hns. apply Hskip.
      intros [? _]. congruence.
Qed.

Lemma class_calls_inner_fold_nodes m X calls G :
  X ∈ node_set G → (∀ f c, m !! f = Some c → c ∈ node_set G) →
  nodes (fold_left (class_calls_inner m X) calls G) = nodes G.
Proof.
  revert G. induction calls as [|c calls IH]; intros G HX Hm; [done|].
  change (fold_left (class_calls_inner m X) (c :: calls) G)
    with (fold_left (class_calls_inner m X) calls (class_calls_inner m X G c)).
  assert (Hstep : nodes (class_calls_inner m X G c) = nodes G).
  { unfold class_calls_inner. destruct (m !! c) as [Y|] eqn:Hc; [|done].
    case_bool_decide; [done|]. apply nodes_add_edge_known; [done|]. by apply (Hm c). }
  rewrite IH; [done| |]; unfold node_set in *; by rewrite Hstep.
Qed.

Lemma class_calls_second_fold_nodes m data G :
  (∀ f c, m !! f = Some c → c ∈ node_set G) →
  nodes (fold_left (class_calls_second m) data G) = nodes G.
Proof.
  revert G. induction data as [|[f cs] data IH]; intros G Hm; [done|].
  change (fold_left (class_calls_second m) ((f, cs) :: data) G)
    with (fold_left (class_calls_second m) data (class_calls_second m G (f, cs))).
  assert (Hstep : nodes (class_calls_second m G (f, cs)) = nodes G).
  { unfold class_calls_second. destruct (m !! f) as [X|] eqn:Hf; [|done].
    apply class_calls_inner_fold_nodes; [by apply (Hm f)|done]. }
  rewrite IH; [done|]. unfold node_set in *. by rewrite Hstep.
Qed.

Lemma extract_class_calls_nodes data :
  well_labelled (extract_class_calls repo_dir data) ∧
  ∀ X, X ∈ node_set (extract_class_calls repo_dir data) ↔
       ∃ f, f ∈ map fst data ∧ in_corpus repo_dir f = true ∧ owner f = Some X.
Proof.
  unfold extract_class_calls.
  destruct (class_calls_first_nodes (map fst data) empty_graph ∅ well_labelled_empty)
    as (Hwl & Hmap & Hns).
  { intros f c Hf. by rewrite lookup_empty in Hf. }
  destruct (fold_left (class_calls_first repo_dir) (map fst data) (empty_graph, ∅))
    as [G m]. simpl in Hwl, Hmap, Hns.
  pose proof (class_calls_second_fold_nodes m data G Hmap) as Hnodes.
  split.
  - intros n attr. rewrite Hnodes. apply Hwl.
  - intros X. unfold node_set at 1. rewrite Hnodes. fold (node_set G). rewrite Hns.
    unfold node_set. simpl. rewrite dom_empty_L. split; [|auto].
    intros [[]%elem_of_empty|?]; done.
Qed.

End ClassGraphNodes.

(** ** Properties of the two graphs built from the oracle's mapping *)

Lemma digraph_eq (G G' : DiGraph) : nodes G = nodes G' → edges G = edges G' → G = G'.
Proof. destruct G, G'. simpl. by intros -> ->. Qed.

Lemma elem_of_node_set (G : DiGraph) (n : string) :
  n ∈ node_set G ↔ is_Some (nodes G !! n).
Proof. apply elem_of_dom. Qed.

Lemma well_labelled_nodes_eq (G G' : DiGraph) :
  well_labelled G → well_labelled G' → node_set G = node_set G' → nodes G = nodes G'.
Proof.
  intros HG HG' Hdom. apply map_eq. intros n.
  destruct (nodes G !! n) as [a|] eqn:Ha, (nodes G' !! n) as [a'|] eqn:Ha'.
  - by rewrite (HG n a Ha), (HG' n a' Ha').
  - assert (n ∈ node_set G') as Hn by (rewrite <- Hdom; apply elem_of_node_set; eauto).
    apply elem_of_node_set in Hn as [? Hn]. congruence.
  - assert (n ∈ node_set G) as Hn by (rewrite Hdom; apply elem_of_node_set; eauto).
    apply elem_of_node_set in Hn as [? Hn]. congruence.
  - done.
Qed.

Section GraphProperties.

Variable repo_dir : string.

(** X1.  The nodes of the function-level graph are the in-corpus keys of the
    mapping, also those that call nothing, and the in-corpus callees of
    in-corpus keys; a callee of an out-of-corpus caller is a node only if
    it qualifies in one of these ways. *)
Theorem function_graph_node_set
    (call_graph_data : list (string * list string)) (n : string) :
  n ∈ node_set (extract_function_calls repo_dir call_graph_data) ↔
  Py.startswith n (corpus_prefix repo_dir) = true ∧
  ((∃ calls, (n, calls) ∈ call_graph_data) ∨
   (∃ func calls,
      (func, calls) ∈ call_graph_data ∧ n ∈ calls ∧
      Py.startswith func (corpus_prefix repo_dir) = true)).
Proof. apply extract_function_calls_node_set. Qed.

(** X2.  Every node of the function-level graph carries exactly three
    attributes: as label the last dot-separated segment of its name, as
    title the name, as group the segments before the last joined by
    dots. *)
Theorem function_graph_node_attributes
    (call_graph_data : list (string * list string)) (n : string)
    (attr : gmap string string) :
  nodes (extract_function_calls repo_dir call_graph_data) !! n = Some attr →
  attr = {[ "label" := Py.last_item (Py.split "." n);
            "title" := n;
            "group" := Py.join "." (Py.but_last (Py.split "." n)) ]}.
Proof. apply extract_function_calls_well_labelled. Qed.

(** X3.  The name of a node of the function-level graph can be read back from
    its metadata: the title is the name, and the name is the group, a dot
    and the label, or the label alone when the group is empty. *)
Theorem function_graph_name_from_metadata
    (call_graph_data : list (string * list string)) (n : string) :
  n ∈ node_set (extract_function_calls repo_dir call_graph_data) →
  ∃ label group,
    node_attr (extract_function_calls repo_dir call_graph_data) n "label" = Some label ∧
    node_attr (extract_function_calls repo_dir call_graph_data) n "group" = Some group ∧
    node_attr (extract_function_calls repo_dir call_graph_data) n "title" = Some n ∧
    ((group = "" ∧ n = label) ∨ n = group +:+ "." +:+ label).
Proof.
  intros [attr Hn]%elem_of_node_set.
  pose proof (extract_function_calls_well_labelled repo_dir _ _ _ Hn) as ->.
  unfold node_attr. rewrite Hn. simpl.
  exists (Py.last_item (Py.split "." n)), (Py.join "." (Py.but_last (Py.split "." n))).
  split_and!; [done..|].
  destruct (group_dot_label n) as [(_ & Hg & Hl)|[_ Hgl]]; [left|right]; done.
Qed.

(** X4.  Both ends of every edge of the function-level graph are nodes
    that carry their metadata: each is in the node table with the
    attributes derived from its name, none with an empty attribute
    dict. *)
Theorem function_graph_edge_ends_carry_metadata
    (call_graph_data : list (string * list string)) (caller callee : string) :
  (caller, callee) ∈ edges (extract_function_calls repo_dir call_graph_data) →
  nodes (extract_function_calls repo_dir call_graph_data) !! caller =
    Some {[ "label" := Py.last_item (Py.split "." caller);
            "title" := caller;
            "group" := Py.join "." (Py.but_last (Py.split "." caller)) ]} ∧
  nodes (extract_function_calls repo_dir call_graph_data) !! callee =
    Some {[ "label" := Py.last_item (Py.split "." callee);
            "title" := callee;
            "group" := Py.join "." (Py.but_last (Py.split "." callee)) ]}.
Proof.
  intros (func & calls & call & Hin & Hc & Hf & Hcc & [= -> ->])%extract_function_calls_edges.
  assert (Hnode : ∀ n,
    n ∈ node_set (extract_function_calls repo_dir call_graph_data) →
    nodes (extract_function_calls repo_dir call_graph_data) !! n = Some (fqn_attrs n)).
  { intros n [attr Hn]%elem_of_node_set. rewrite Hn. f_equal.
    by apply (extract_function_calls_well_labelled repo_dir call_graph_data). }
  split; apply Hnode, extract_function_calls_node_set; (split; [done|]); eauto 10.
Qed.

Lemma extract_function_calls_same_items (data data' : list (string * list string)) :
  (∀ x, x ∈ data ↔ x ∈ data') →
  extract_function_calls repo_dir data = extract_function_calls repo_dir data'.
Proof.
  intros Hsame. apply digraph_eq.
  - apply well_labelled_nodes_eq; [apply extract_function_calls_well_labelled..|].
    apply set_eq. intros n. rewrite !extract_function_calls_node_set.
    split; intros [Hn [[calls Hc]|(func & calls & Hc & ?)]]; (split; [done|]);
      apply Hsame in Hc; eauto 10.
  - apply set_eq. intros e. rewrite !extract_function_calls_edges.
    split; intros (func & calls & call & Hc & ?); apply Hsame in Hc; eauto 10.
Qed.

(** X5.  The function-level graph, metadata included, does not depend on the
    order in which the mapping lists its entries. *)
Theorem function_graph_order_independent (data data' : list (string * list string)) :
  data ≡ₚ data' →
  extract_function_calls repo_dir data = extract_function_calls repo_dir data'.
Proof.
  intros Hperm. apply extract_function_calls_same_items. intros x. by rewrite Hperm.
Qed.

(** X7.  The nodes of the class-level graph are the owners of the in-corpus
    keys of the mapping with at least three segments; a class whose
    methods occur only as callees is not a node. *)
Theorem class_graph_node_set
    (call_graph_data : list (string * list string)) (X : string) :
  X ∈ node_set (extract_class_calls repo_dir call_graph_data) ↔
  ∃ func,
    func ∈ map fst call_graph_data ∧
    Py.startswith func (corpus_prefix repo_dir) = true ∧
    (3 ≤ length (Py.split "." func))%nat ∧
    X = Py.join "." (Py.but_last (Py.split "." func)).
Proof.
  destruct (extract_class_calls_nodes repo_dir call_graph_data) as [_ Hns].
  rewrite Hns. split.
  - intros (f & Hf & Hc & Ho). exists f. unfold owner in Ho.
    case_bool_decide; [|done]. injection Ho as <-. done.
  - intros (f & Hf & Hc & Hlen & ->). exists f. split_and!; [done..|].
    unfold owner. by rewrite bool_decide_eq_true_2.
Qed.

(** X8.  Every node of the class-level graph carries as label the last segment
    of the class name, as title the class name and as group the segments
    before the last: the metadata of a class are derived as those of a
    function, whichever of its methods is met first. *)
Theorem class_graph_node_attributes
    (call_graph_data : list (string * list string)) (X : string)
    (attr : gmap string string) :
  nodes (extract_class_calls repo_dir call_graph_data) !! X = Some attr →
  attr = {[ "label" := Py.last_item (Py.split "." X);
            "title" := X;
            "group" := Py.join "." (Py.but_last (Py.split "." X)) ]}.
Proof. apply extract_class_calls_nodes. Qed.

(** X9.  The second pass of [extract_class_calls] adds no node: the node
    table of the result is the one the first pass built.  Both ends of
    every edge are nodes of that table and carry the metadata derived from
    the class name, none an empty attribute dict. *)
Theorem class_graph_second_pass_adds_no_node
    (call_graph_data : list (string * list string)) :
  nodes (extract_class_calls repo_dir call_graph_data) =
    nodes (fold_left (class_calls_first repo_dir) (map fst call_graph_data)
             (empty_graph, ∅)).1 ∧
  ∀ X Y,
    (X, Y) ∈ edges (extract_class_calls repo_dir call_graph_data) →
    nodes (extract_class_calls repo_dir call_graph_data) !! X =
      Some {[ "label" := Py.last_item (Py.split "." X);
              "title" := X;
              "group" := Py.join "." (Py.but_last (Py.split "." X)) ]} ∧
    nodes (extract_class_calls repo_dir call_graph_data) !! Y =
      Some {[ "label" := Py.last_item (Py.split "." Y);
              "title" := Y;
              "group" := Py.join "." (Py.but_last (Py.split "." Y)) ]}.
Proof.
  split.
  - unfold extract_class_calls.
    destruct (class_calls_first_nodes repo_dir (map fst call_graph_data) empty_graph ∅
                well_labelled_empty) as (_ & Hmap & _).
    { intros f c Hf. by rewrite lookup_empty in Hf. }
    destruct (fold_left (class_calls_first repo_dir) (map fst call_graph_data)
                (empty_graph, ∅)) as [G m].
    simpl in *. by apply class_calls_second_fold_nodes.
  - intros X Y (func & calls & call & X' & Y' & Hin & Hc & Hf & HX & Hk & Hcc & HY & Hne
                & [= -> ->])%extract_class_calls_edges.
    destruct (extract_class_calls_nodes repo_dir call_graph_data) as [Hwl Hns].
    assert (Hnode : ∀ Z,
      Z ∈ node_set (extract_class_calls repo_dir call_graph_data) →
      nodes (extract_class_calls repo_dir call_graph_data) !! Z = Some (fqn_attrs Z)).
    { intros Z [attr HZ]%elem_of_node_set. rewrite HZ. f_equal. by apply Hwl. }
    split; apply Hnode, Hns; [exists func|exists call]; split_and!; try done.
    apply list_elem_of_fmap. by exists (func, calls).
Qed.

(** X10.  The class-level graph, metadata included, does not depend on the
    order in which the mapping lists its entries. *)
Theorem class_graph_order_independent (data data' : list (string * list string)) :
  data ≡ₚ data' →
  extract_class_calls repo_dir data = extract_class_calls repo_dir data'.
Proof.
  intros Hperm.
  assert (Hkeys : ∀ f, f ∈ map fst data ↔ f ∈ map fst data').
  { intros f. by rewrite Hperm. }
  destruct (extract_class_calls_nodes repo_dir data) as [Hwl Hns].
  destruct (extract_class_calls_nodes repo_dir data') as [Hwl' Hns'].
  apply digraph_eq.
  - apply well_labelled_nodes_eq; [done..|].
    apply set_eq. intros X. rewrite Hns, Hns'.
    split; intros (f & Hf & ?); apply Hkeys in Hf; eauto.
  - apply set_eq. intros e. rewrite !extract_class_calls_edges.
    split; intros (func & calls & call & X & Y & Hin & Hc & Hf & HX & Hk & ?);
      exists func, calls, call, X, Y; split_and!; try tauto;
      (by rewrite Hperm in * || by rewrite <- Hperm in * || by apply Hkeys).
Qed.

End GraphProperties.

(** ** The graph properties on [closed_mapping] *)

Lemma function_graph_node_attributes_witness :
  fqn_attrs (Examples.root +:+ ".a.C.m") =
  {[ "label" := Py.last_item (Py.split "." (Examples.root +:+ ".a.C.m"));
     "title" := Examples.root +:+ ".a.C.m";
     "group" := Py.join "." (Py.but_last (Py.split "." (Examples.root +:+ ".a.C.m"))) ]}.
Proof.
  apply (function_graph_node_attributes REPO_DIR Examples.closed_mapping).
  vm_compute. reflexivity.
Defined.

Lemma function_graph_name_from_metadata_witness :
  let G := extract_function_calls REPO_DIR Examples.closed_mapping in
  let n := Examples.root +:+ ".b.D.n" in
  ∃ label group,
    node_attr G n "label" = Some label ∧
    node_attr G n "group" = Some group ∧
    node_attr G n "title" = Some n ∧
    ((group = "" ∧ n = label) ∨ n = group +:+ "." +:+ label).
Proof.
  apply (function_graph_name_from_metadata REPO_DIR Examples.closed_mapping).
  by_evaluation.
Defined.

Lemma function_graph_edge_ends_carry_metadata_witness :
  nodes (extract_function_calls REPO_DIR Examples.closed_mapping)
    !! (Examples.root +:+ ".a.C.m") =
    Some {[ "label" := Py.last_item (Py.split "." (Examples.root +:+ ".a.C.m"));
            "title" := Examples.root +:+ ".a.C.m";
            "group" := Py.join "." (Py.but_last (Py.split "." (Examples.root +:+ ".a.C.m"))) ]} ∧
  nodes (extract_function_calls REPO_DIR Examples.closed_mapping)
    !! (Examples.root +:+ ".b.D.n") =
    Some {[ "label" := Py.last_item (Py.split "." (Examples.root +:+ ".b.D.n"));
            "title" := Examples.root +:+ ".b.D.n";
            "group" := Py.join "." (Py.but_last (Py.split "." (Examples.root +:+ ".b.D.n"))) ]}.
Proof.
  apply (function_graph_edge_ends_carry_metadata REPO_DIR Examples.closed_mapping).
  by_evaluation.
Defined.

Lemma function_graph_order_independent_witness :
  extract_function_calls REPO_DIR
    [ (Examples.root +:+ ".a.f", [Examples.root +:+ ".a.g"]);
      (Examples.root +:+ ".a.g", []) ]
  = extract_function_calls REPO_DIR
      [ (Examples.root +:+ ".a.g", []);
        (Examples.root +:+ ".a.f", [Examples.root +:+ ".a.g"]) ].
Proof.
  apply (function_graph_order_independent REPO_DIR). apply perm_swap.
Defined.

Lemma class_graph_node_attributes_witness :
  fqn_attrs (Examples.root +:+ ".a.C") =
  {[ "label" := Py.last_item (Py.split "." (Examples.root +:+ ".a.C"));
     "title" := Examples.root +:+ ".a.C";
     "group" := Py.join "." (Py.but_last (Py.split "." (Examples.root +:+ ".a.C"))) ]}.
Proof.
  apply (class_graph_node_attributes REPO_DIR Examples.closed_mapping).
  vm_compute. reflexivity.
Defined.

Lemma class_graph_order_independent_witness :
  extract_class_calls REPO_DIR
    [ (Examples.root +:+ ".a.C.m", [Examples.root +:+ ".b.D.n"]);
      (Examples.root +:+ ".b.D.n", []) ]
  = extract_class_calls REPO_DIR
      [ (Examples.root +:+ ".b.D.n", []);
        (Examples.root +:+ ".a.C.m", [Examples.root +:+ ".b.D.n"]) ].
Proof.
  apply (class_graph_order_independent REPO_DIR). apply perm_swap.
Defined.

(** ** Line breaks *)

Section Newlines.

Import Extract.

(** A statement about every string follows from its instances at the
    strings of bounded length. *)
Lemma string_length_ind (P : string → Prop) :
  (∀ s, (∀ t, (String.length t < String.length s)%nat → P t) → P s) → ∀ s, P s.
Proof.
  intros HP s. remember (String.length s) as n eqn:Hn.
  revert s Hn. induction (lt_wf n) as [n _ IH]. intros s ->.
  apply HP. intros t Ht. by apply (IH (String.length t)).
Qed.

Lemma universal_newlines_cr_lf (s : string) :
  universal_newlines (String carriage_return (String newline s))
  = String newline (universal_newlines s).
Proof. reflexivity. Qed.

Lemma universal_newlines_cr_other (c : ascii) (s : string) :
  Ascii.eqb c newline = false →
  universal_newlines (String carriage_return (String c s))
  = String newline (universal_newlines (String c s)).
Proof.
  intros Hc.
  change (universal_newlines (String carriage_return (String c s)))
    with (if Ascii.eqb c newline
          then String newline (universal_newlines s)
          else String newline (universal_newlines (String c s))).
  by rewrite Hc.
Qed.

Lemma contains_cr_newline_cons (s : string) :
  contains carriage_return (String newline s) = contains carriage_return s.
Proof. reflexivity. Qed.

Lemma universal_newlines_no_cr (s : string) :
  contains carriage_return (universal_newlines s) = false.
Proof.
  induction s as [s IH] using string_length_ind.
  destruct s as [|c s]; [done|].
  destruct (Ascii.eqb c carriage_return) eqn:Hc.
  - apply Ascii.eqb_eq in Hc as ->. destruct s as [|c' s'].
    + reflexivity.
    + destruct (Ascii.eqb c' newline) eqn:Hc'.
      * apply Ascii.eqb_eq in Hc' as ->.
        rewrite universal_newlines_cr_lf, contains_cr_newline_cons.
        apply IH. simpl. lia.
      * rewrite universal_newlines_cr_other, contains_cr_newline_cons by done.
        apply IH. simpl. lia.
  - change (universal_newlines (String c s))
      with (if Ascii.eqb c carriage_return
            then match s with
                 | String c' rest' =>
                     if Ascii.eqb c' newline
                     then String newline (universal_newlines rest')
                     else String newline (universal_newlines s)
                 | EmptyString => String newline EmptyString
                 end
            else String c (universal_newlines s)).
    rewrite Hc.
    change (contains carriage_return (String c (universal_newlines s)))
      with (Ascii.eqb c carriage_return || contains carriage_return (universal_newlines s)).
    rewrite Hc. apply IH. simpl. lia.
Qed.

Lemma universal_newlines_char (c : ascii) :
  Ascii.eqb c carriage_return = false →
  universal_newlines (String c EmptyString) = String c EmptyString.
Proof. intros Hc. simpl. by rewrite Hc. Qed.

Lemma universal_newlines_cons (c : ascii) (s : string) :
  Ascii.eqb c carriage_return = false →
  universal_newlines (String c s) = String c (universal_newlines s).
Proof.
  intros Hc.
  change (universal_newlines (String c s))
    with (if Ascii.eqb c carriage_return
          then match s with
               | String c' rest' =>
                   if Ascii.eqb c' newline
                   then String newline (universal_newlines rest')
                   else String newline (universal_newlines s)
               | EmptyString => String newline EmptyString
               end
          else String c (universal_newlines s)).
  by rewrite Hc.
Qed.

Lemma universal_newlines_id (s : string) :
  contains carriage_return s = false → universal_newlines s = s.
Proof.
  induction s as [|c s IH]; [done|].
  change (contains carriage_return (String c s))
    with (Ascii.eqb c carriage_return || contains carriage_return s).
  intros [Hc Hs]%orb_false_iff. rewrite universal_newlines_cons, IH; done.
Qed.

(** Reading in text mode gives the lines of the file as stored, each with
    its line break turned into a line feed. *)
Lemma readlines_universal_newlines (s : string) :
  readlines (universal_newlines s) = map universal_newlines (raw_lines s).
Proof.
  induction s as [s IH] using string_length_ind.
  destruct s as [|c s]; [done|].
  destruct (Ascii.eqb c carriage_return) eqn:Hc.
  - apply Ascii.eqb_eq in Hc as ->. destruct s as [|c' s'].
    + reflexivity.
    + destruct (Ascii.eqb c' newline) eqn:Hc'.
      * apply Ascii.eqb_eq in Hc' as ->.
        rewrite universal_newlines_cr_lf.
        change (String newline EmptyString :: readlines (universal_newlines s')
                = String newline EmptyString :: map universal_newlines (raw_lines s')).
        f_equal. apply IH. simpl. lia.
      * assert (Hraw : raw_lines (String carriage_return (String c' s'))
                       = String carriage_return EmptyString :: raw_lines (String c' s')).
        { change (raw_lines (String carriage_return (String c' s')))
            with (if Ascii.eqb c' newline
                  then String carriage_return (String c' EmptyString) :: raw_lines s'
                  else String carriage_return EmptyString :: raw_lines (String c' s')).
          by rewrite Hc'. }
        rewrite universal_newlines_cr_other, Hraw by done.
        change (String newline EmptyString :: readlines (universal_newlines (String c' s'))
                = String newline EmptyString
                  :: map universal_newlines (raw_lines (String c' s'))).
        f_equal. apply IH. simpl. lia.
  - rewrite universal_newlines_cons by done.
    assert (IHs := IH s ltac:(simpl; lia)).
    assert (Hraw : raw_lines (String c s) =
      if Ascii.eqb c newline then String c EmptyString :: raw_lines s
      else match raw_lines s with
           | [] => [String c EmptyString]
           | l :: ls => String c l :: ls
           end).
    { change (raw_lines (String c s))
        with (if Ascii.eqb c carriage_return
              then match s with
                   | String c' rest' =>
                       if Ascii.eqb c' newline
                       then String c (String c' EmptyString) :: raw_lines rest'
                       else String c EmptyString :: raw_lines s
                   | EmptyString => [String c EmptyString]
                   end
              else if Ascii.eqb c newline then String c EmptyString :: raw_lines s
              else match raw_lines s with
                   | [] => [String c EmptyString]
                   | l :: ls => String c l :: ls
                   end).
      by rewrite Hc. }
    rewrite Hraw.
    change (readlines (String c (universal_newlines s)))
      with (if Ascii.eqb c newline
            then String c EmptyString :: readlines (universal_newlines s)
            else match readlines (universal_newlines s) with
                 | [] => [String c EmptyString]
                 | l :: ls => String c l :: ls
                 end).
    rewrite IHs. destruct (Ascii.eqb c newline).
    + rewrite map_cons, universal_newlines_char by done. done.
    + destruct (raw_lines s) as [|l ls].
      * rewrite map_cons, universal_newlines_char by done. done.
      * rewrite !map_cons, universal_newlines_cons by done. done.
Qed.

Lemma raw_lines_without_cr (s : string) :
  contains carriage_return s = false → raw_lines s = readlines s.
Proof.
  induction s as [|c s IH]; [done|].
  change (contains carriage_return (String c s))
    with (Ascii.eqb c carriage_return || contains carriage_return s).
  intros [Hc Hs]%orb_false_iff.
  change (raw_lines (String c s))
    with (if Ascii.eqb c carriage_return
          then match s with
               | String c' rest' =>
                   if Ascii.eqb c' newline
                   then String c (String c' EmptyString) :: raw_lines rest'
                   else String c EmptyString :: raw_lines s
               | EmptyString => [String c EmptyString]
               end
          else if Ascii.eqb c newline then String c EmptyString :: raw_lines s
          else match raw_lines s with
               | [] => [String c EmptyString]
               | l :: ls => String c l :: ls
               end).
  rewrite Hc, IH by done. reflexivity.
Qed.

Lemma map_universal_newlines_without_cr (s : string) :
  contains carriage_return s = false →
  map universal_newlines (raw_lines s) = raw_lines s.
Proof.
  intros Hs. rewrite <- readlines_universal_newlines.
  by rewrite universal_newlines_id, raw_lines_without_cr.
Qed.

End Newlines.

(** ** Properties of the signature and source extractor *)

Lemma AST_forall_ind (P : AST → Prop) :
  (∀ c cs, Forall P cs → P (Node c cs)) → ∀ t, P t.
Proof.
  intros HP. fix IH 1. intros [c cs]. apply HP.
  induction cs as [|t cs IHcs]; constructor; [apply IH|exact IHcs].
Qed.

Lemma flat_map_nil_const {A B} (l : list A) : flat_map (fun _ => @nil B) l = [].
Proof. induction l; simpl; done. Qed.

Lemma flat_map_app_perm {A B} (g h : A → list B) (l : list A) :
  flat_map (fun x => g x ++ h x) l ≡ₚ flat_map g l ++ flat_map h l.
Proof.
  induction l as [|x l IH]; simpl; [done|].
  rewrite IH, <- !app_assoc. apply Permutation_app_head.
  rewrite !app_assoc. apply Permutation_app_tail, Permutation_app_comm.
Qed.

Lemma flat_map_swap_perm {A B C} (f : A → B → list C) (ns : list A) (q : list B) :
  flat_map (fun n => flat_map (f n) q) ns
  ≡ₚ flat_map (fun c => flat_map (fun n => f n c) ns) q.
Proof.
  induction ns as [|a ns IH]; simpl.
  - by rewrite flat_map_nil_const.
  - by rewrite IH, flat_map_app_perm.
Qed.

Lemma flat_map_perm_ext {A B} (f g : A → list B) (l : list A) :
  Forall (fun x => f x ≡ₚ g x) l → flat_map f l ≡ₚ flat_map g l.
Proof.
  induction 1 as [|x l Hx _ IH]; simpl; [done|]. by rewrite Hx, IH.
Qed.

Lemma levels_of_single (t : AST) (k : nat) :
  (size t ≤ k)%nat → flat_map (fun n => level n t) (seq 0 k) = level_order t.
Proof.
  intros Hk. unfold level_order.
  replace k with (size t + (k - size t))%nat by lia.
  rewrite seq_app, flat_map_app.
  pose proof (levels_beyond [t] (0 + size t) (k - size t)) as Hb.
  rewrite <- (app_nil_r (flat_map _ (seq 0 (size t)))) at 2. f_equal.
  rewrite <- Hb by (unfold forest_size; simpl; lia).
  apply flat_map_ext. intros n. simpl. by rewrite app_nil_r.
Qed.

Lemma level_order_unfold (c : node_class) (cs : list AST) :
  level_order (Node c cs) =
  Node c cs :: flat_map (fun n => flat_map (level n) cs) (seq 0 (forest_size cs)).
Proof.
  unfold level_order. rewrite size_children. simpl iter_child_nodes.
  change (seq 0 (S (forest_size cs))) with (0%nat :: seq 1 (forest_size cs)).
  simpl flat_map at 1. f_equal.
  rewrite <- seq_shift, flat_map_concat_map, map_map, <- flat_map_concat_map.
  reflexivity.
Qed.

(** The breadth-first walk meets the nodes that the depth-first reading of
    the tree meets, each as often. *)
Lemma level_order_preorder (t : AST) : level_order t ≡ₚ preorder t.
Proof.
  induction t as [c cs IH] using AST_forall_ind.
  rewrite level_order_unfold. simpl. constructor.
  rewrite flat_map_swap_perm. apply flat_map_perm_ext.
  apply Forall_forall. intros t Ht.
  rewrite levels_of_single.
  - apply (proj1 (Forall_forall _ _) IH t Ht).
  - by apply size_elem_of.
Qed.

Section ExtractProperties.

Import Extract.

Variable ast_parse : string → option AST.

(** X11.  The parser is consulted at one text only, the content of the
    file with every CR LF and lone CR turned into a line feed: two parsers
    that agree there give the same run.  That text has no CR left, and it
    is the content itself when the content has none. *)
Theorem parser_is_given_the_translated_text (file_content : string) :
  (∀ parse1 parse2 : string → option AST,
     parse1 (universal_newlines file_content) = parse2 (universal_newlines file_content) →
     extract_functions_of_file parse1 file_content
     = extract_functions_of_file parse2 file_content) ∧
  contains carriage_return (universal_newlines file_content) = false ∧
  (contains carriage_return file_content = false →
   universal_newlines file_content = file_content).
Proof.
  split_and!.
  - intros parse1 parse2 Hagree. unfold extract_functions_of_file, extract_functions.
    rewrite join_readlines, Hagree. done.
  - apply universal_newlines_no_cr.
  - apply universal_newlines_id.
Qed.

(** X12.  A run fails exactly when parsing fails, before anything is written;
    when it succeeds the header is the first row and there is one printed
    line for every row after it. *)
Theorem output_exists_iff_parsed (source_text : string) :
  (extract_functions ast_parse source_text = None ↔ ast_parse source_text = None) ∧
  (∀ out, extract_functions ast_parse source_text = Some out →
     ∃ rows, csv_rows out = header :: rows ∧ length rows = length (stdout out)).
Proof.
  destruct (ast_parse source_text) as [tree|] eqn:Hp.
  - rewrite (extract_functions_rows ast_parse source_text tree Hp). split; [done|].
    intros out [= <-]. eexists. split; [done|]. simpl. by rewrite !length_map.
  - unfold extract_functions. rewrite join_readlines, Hp. done.
Qed.

(** X13.  Every plain definition of the tree gets exactly one row: the rows
    after the header are those of the definitions in document order, in
    another order. *)
Theorem rows_are_a_permutation_of_document_order (source_text : string) (tree : AST) :
  ast_parse source_text = Some tree →
  ∃ out,
    extract_functions ast_parse source_text = Some out ∧
    csv_rows out ≡ₚ
      header :: map (row (readlines source_text)) (function_defs (preorder tree)).
Proof.
  intros Hp. eexists. split; [by apply extract_functions_rows|]. simpl.
  constructor. apply Permutation_map. unfold function_defs.
  apply Permutation_flat_map. rewrite walk_level_order. apply level_order_preorder.
Qed.

(** X14.  For a span that lies inside the file, the number printed for a
    definition is one more than the number of lines of the source text
    written for it. *)
Theorem diagnostic_overcounts_by_one (source_text : string) (d : function_def) :
  (1 ≤ lineno d)%Z → (lineno d ≤ end_lineno d)%Z →
  (end_lineno d ≤ Z.of_nat (length (readlines source_text)))%Z →
  diagnostic d =
  pretty (Z.of_nat (length (readlines (func_src (readlines source_text) d))) + 1)%Z
  +:+ " lines in " +:+ name d.
Proof.
  intros Ha Hab Hb.
  destruct (slice_span (readlines source_text) _ _ Ha Hab Hb) as [Hslice Hlen].
  unfold func_src, diagnostic. rewrite readlines_join.
  - rewrite Hlen. do 2 f_equal. lia.
  - rewrite Hslice. apply lines_ok_take, lines_ok_drop, readlines_ok.
Qed.

(** X15.  A span that reaches past the end of the file raises nothing: the text
    written runs from the first line of the span to the end of the file,
    and is empty when the span starts past the end. *)
Theorem source_text_clamped_at_end_of_file (source_lines : list string) (d : function_def) :
  (1 ≤ lineno d)%Z → (Z.of_nat (length source_lines) ≤ end_lineno d)%Z →
  func_src source_lines d = Py.join "" (drop (Z.to_nat (lineno d - 1)) source_lines) ∧
  ((Z.of_nat (length source_lines) < lineno d)%Z → func_src source_lines d = "").
Proof.
  intros Ha Hb.
  assert (Heq : func_src source_lines d
                = Py.join "" (drop (Z.to_nat (lineno d - 1)) source_lines)).
  { unfold func_src, slice, slice_index.
    destruct (Z.ltb_spec (lineno d - 1) 0); [lia|].
    destruct (Z.ltb_spec (end_lineno d) 0); [lia|].
    rewrite (Z.min_r (end_lineno d)) by lia.
    destruct (Z.le_gt_cases (lineno d - 1) (Z.of_nat (length source_lines))).
    - rewrite Z.min_l by lia. rewrite take_ge; [done|]. rewrite length_drop. lia.
    - rewrite Z.min_r by lia. rewrite !drop_ge by lia. by rewrite take_nil. }
  split; [done|]. intros Hpast. rewrite Heq, drop_ge by lia. done.
Qed.

End ExtractProperties.

Lemma rows_are_a_permutation_of_document_order_witness :
  ∃ out,
    Extract.extract_functions (fun _ => Some Examples.nested_tree) Examples.nested_text
      = Some out ∧
    Extract.csv_rows out ≡ₚ
      Extract.header ::
      map (Extract.row (Extract.readlines Examples.nested_text))
          (function_defs (preorder Examples.nested_tree)).
Proof.
  apply (rows_are_a_permutation_of_document_order
           (fun _ => Some Examples.nested_tree) Examples.nested_text Examples.nested_tree).
  reflexivity.
Defined.

Lemma diagnostic_overcounts_by_one_witness :
  Extract.diagnostic Examples.def_a =
  pretty (Z.of_nat (length (Extract.readlines
            (Extract.func_src (Extract.readlines Examples.nested_text) Examples.def_a))) + 1)%Z
  +:+ " lines in " +:+ name Examples.def_a.
Proof.
  apply (diagnostic_overcounts_by_one Examples.nested_text Examples.def_a).
  - simpl. lia.
  - simpl. lia.
  - vm_compute. discriminate.
Defined.

Lemma source_text_clamped_at_end_of_file_witness :
  let d := mk_function_def "b" Examples.no_arguments 4 9 in
  let source_lines := Extract.readlines Examples.nested_text in
  Extract.func_src source_lines d = Py.join "" (drop (Z.to_nat (lineno d - 1)) source_lines) ∧
  ((Z.of_nat (length source_lines) < lineno d)%Z → Extract.func_src source_lines d = "").
Proof.
  apply (source_text_clamped_at_end_of_file
           (Extract.readlines Examples.nested_text)
           (mk_function_def "b" Examples.no_arguments 4 9)).
  - simpl. lia.
  - vm_compute. discriminate.
Defined.

(** ** Properties of the fallback structural analysis *)

Section FallbackProperties.

Import Fallback.

Lemma add_unit_fold_fst fn units gs :
  (fold_left (add_unit fn) units gs).1 =
  fold_left (fun g u => add_node u (unit_attrs fn u) g) units gs.1.
Proof. revert gs. induction units as [|u units IH]; intros gs; simpl; [done|]. by rewrite IH. Qed.

Lemma infer_call_fold_fst functions l gs :
  list_to_set functions ⊆ node_set gs.1 →
  nodes (fold_left (infer_call functions) l gs).1 = nodes gs.1 ∧
  edges (fold_left (infer_call functions) l gs).1 = edges gs.1 ∪ call_edges functions l.
Proof.
  revert gs. induction l as [|n l IH]; intros gs Hsub.
  - simpl. split; [done|]. unfold call_edges. simpl. set_solver.
  - change (fold_left (infer_call functions) (n :: l) gs)
      with (fold_left (infer_call functions) l (infer_call functions gs n)).
    assert (Hcons : call_edges functions (n :: l) =
      call_edges functions [n] ∪ call_edges functions l).
    { unfold call_edges. simpl. rewrite app_nil_r, list_to_set_app_L. done. }
    assert (Hstep : nodes (infer_call functions gs n).1 = nodes gs.1 ∧
      edges (infer_call functions gs n).1 = edges gs.1 ∪ call_edges functions [n]).
    { unfold infer_call, call_edges. simpl.
      destruct (node_cls n) as [| | |[id|] [p|]|]; simpl;
        try (split; [done|set_solver]).
      - repeat case_bool_decide; simpl; try (split; [done|set_solver]).
        split; [|set_solver].
        apply nodes_add_edge_known; apply Hsub, elem_of_list_to_set; done.
      - case_bool_decide; simpl; split; (done || set_solver). }
    destruct Hstep as [Hn He].
    destruct (IH (infer_call functions gs n)) as [IHn IHe].
    { unfold node_set in *. by rewrite Hn. }
    rewrite IHn, IHe, Hn, He, Hcons. split; [done|set_solver].
Qed.

Lemma elem_of_call_edges functions l caller callee :
  (caller, callee) ∈ call_edges functions l ↔
  caller ∈ functions ∧ callee ∈ functions ∧
  ∃ s, s ∈ l ∧ node_cls s = Call (Some callee) (Some caller).
Proof.
  unfold call_edges. rewrite elem_of_list_to_set, list_elem_of_In, in_flat_map. split.
  - intros (s & Hs & He). apply list_elem_of_In in Hs.
    destruct (node_cls s) as [| | |[id|] [p|]|] eqn:Hc; simpl in He; try done.
    repeat case_bool_decide; simpl in He; try done.
    destruct He as [[= -> ->]|[]]. eauto.
  - intros (Hp & Hi & s & Hs & Hc). exists s. split; [by apply list_elem_of_In|].
    rewrite Hc. rewrite !bool_decide_eq_true_2 by done. by left.
Qed.

Variable read_file : string → option string.
Variable ast_parse : string → option AST.

(** What one file that can be read and parsed adds to the analysis. *)
Lemma analyze_file_parsed st file tree :
  read_file file ≫= ast_parse = Some tree →
  let fn := Py.basename file in
  let functions := map name (function_defs (walk tree)) in
  let classes := class_names (walk tree) in
  let f_out := output_path (Py.replace fn ".py" "" +:+ "_function.html") in
  let c_out := output_path (Py.replace fn ".py" "" +:+ "_class.html") in
  ∃ fg cg,
    function_graphs (analyze_file read_file ast_parse st file) =
      function_graphs st ++ (if bool_decide (functions ≠ []) then [f_out] else []) ∧
    class_graphs (analyze_file read_file ast_parse st file) =
      class_graphs st ++ (if bool_decide (classes ≠ []) then [c_out] else []) ∧
    rendered (analyze_file read_file ast_parse st file) =
      rendered st
      ++ (if bool_decide (functions ≠ [])
          then [(fg, f_out, "Function Call Graph: " +:+ fn)] else [])
      ++ (if bool_decide (classes ≠ [])
          then [(cg, c_out, "Class Call Graph: " +:+ fn)] else []) ∧
    nodes fg = nodes (fold_left (fun g u => add_node u (unit_attrs fn u) g)
                        functions empty_graph) ∧
    edges fg = call_edges functions (walk tree) ∧
    cg = fold_left (fun g u => add_node u (unit_attrs fn u) g) classes empty_graph.
Proof.
  intros Hp. simpl. unfold analyze_file. rewrite Hp, collect_fold. simpl.
  set (functions := map name (function_defs (walk tree))).
  set (classes := class_names (walk tree)).
  pose proof (add_unit_fold_fst (Py.basename file) functions
                (empty_graph, combined_function_graph st)) as Hf.
  pose proof (add_unit_fold_fst (Py.basename file) classes
                (empty_graph, combined_class_graph st)) as Hc.
  destruct (fold_left (add_unit (Py.basename file)) functions _) as [fg cfg].
  destruct (fold_left (add_unit (Py.basename file)) classes _) as [cg ccg].
  simpl in Hf, Hc.
  pose proof (infer_call_fold_fst functions (walk tree) (fg, cfg)) as Hi.
  destruct (fold_left (infer_call functions) (walk tree) (fg, cfg)) as [fg' cfg'].
  simpl in Hi. simpl.
  destruct Hi as [Hn He].
  { rewrite Hf, add_units_node_set. set_solver. }
  exists fg', cg. split_and!; try done.
  - by rewrite Hn, Hf.
  - rewrite He, Hf, add_units_edges. simpl. set_solver.
Qed.

Lemma fold_analyze_file_snoc files file :
  fold_left (analyze_file read_file ast_parse) (files ++ [file]) initial =
  analyze_file read_file ast_parse
    (fold_left (analyze_file read_file ast_parse) files initial) file.
Proof. by rewrite fold_left_app. Qed.

(** X16.  The class graphs of the fallback analysis never get an edge. *)
Theorem fallback_class_graph_has_no_edges (files : list string) :
  edges (combined_class_graph
           (analyze_python_file_structure read_file ast_parse files)) = ∅.
Proof.
  unfold analyze_python_file_structure, save_combined. simpl.
  induction files as [|file files IH] using rev_ind; [done|].
  rewrite fold_analyze_file_snoc, analyze_file_edges_classes, IH.
  destruct (read_file file ≫= ast_parse) as [tree|] eqn:Hp.
  - destruct (analyze_file_combined read_file ast_parse initial file tree Hp)
      as (_ & _ & Hc).
    rewrite Hc, add_units_edges. simpl. set_solver.
  - rewrite analyze_file_failed by done. simpl. set_solver.
Qed.

Lemma fallback_function_edges (files : list string) (e : string * string) :
  e ∈ edges (combined_function_graph
               (fold_left (analyze_file read_file ast_parse) files initial)) ↔
  ∃ file tree,
    file ∈ files ∧ read_file file ≫= ast_parse = Some tree ∧
    e ∈ call_edges (map name (function_defs (walk tree))) (walk tree).
Proof.
  induction files as [|file files IH] using rev_ind.
  - simpl. split; [by intros ?%elem_of_empty|].
    by intros (? & ? & ?%elem_of_nil & _).
  - rewrite fold_analyze_file_snoc, analyze_file_edges_functions, elem_of_union, IH.
    assert (Hlast : e ∈ edges (combined_function_graph
                          (analyze_file read_file ast_parse initial file)) ↔
      ∃ tree, read_file file ≫= ast_parse = Some tree ∧
              e ∈ call_edges (map name (function_defs (walk tree))) (walk tree)).
    { destruct (read_file file ≫= ast_parse) as [tree|] eqn:Hp.
      - destruct (analyze_file_combined read_file ast_parse initial file tree Hp)
          as (_ & He & _).
        rewrite He. simpl. rewrite elem_of_union. split.
        + intros [[]%elem_of_empty|?]. eauto.
        + intros (t & [= <-] & ?). by right.
      - rewrite analyze_file_failed by done. simpl.
        split; [by intros ?%elem_of_empty|]. by intros (? & ? & _). }
    rewrite Hlast. split.
    + intros [(f & t & Hf & ?)|(t & ?)].
      * exists f, t. rewrite elem_of_app. auto.
      * exists file, t. rewrite elem_of_app, list_elem_of_singleton. auto.
    + intros (f & t & [Hf|Hf%list_elem_of_singleton]%elem_of_app & ?); [eauto|].
      subst f. eauto.
Qed.

(** X17.  An edge of the combined function graph comes from a [Call] node that
    carries the attribute [parent_func] and whose [func.id] and
    [parent_func] both name functions defined in the file of the node. *)
Theorem fallback_edge_needs_parent_func (files : list string) (caller callee : string) :
  (caller, callee) ∈ edges (combined_function_graph
                             (analyze_python_file_structure read_file ast_parse files)) →
  ∃ file tree s,
    file ∈ files ∧ read_file file ≫= ast_parse = Some tree ∧
    subnode s tree ∧ node_cls s = Call (Some callee) (Some caller) ∧
    caller ∈ map name (function_defs (walk tree)) ∧
    callee ∈ map name (function_defs (walk tree)).
Proof.
  unfold analyze_python_file_structure, save_combined. simpl.
  intros (file & tree & Hf & Hp & He)%fallback_function_edges.
  apply elem_of_call_edges in He as (Hc1 & Hc2 & s & Hs & Hcls).
  exists file, tree, s. split_and!; try done. by apply elem_of_walk.
Qed.

(** X18.  On trees whose [Call] nodes carry no attribute [parent_func], as
    [ast.parse] returns them, the fallback analysis infers no edge. *)
Theorem fallback_infers_no_edge_without_parent_func (files : list string) :
  (∀ file tree s id p,
     file ∈ files → read_file file ≫= ast_parse = Some tree → subnode s tree →
     node_cls s ≠ Call id (Some p)) →
  edges (combined_function_graph
           (analyze_python_file_structure read_file ast_parse files)) = ∅.
Proof.
  intros Hnone. unfold analyze_python_file_structure, save_combined. simpl.
  apply set_eq. intros [caller callee]. split; [|by intros ?%elem_of_empty].
  intros (file & tree & Hf & Hp & He)%fallback_function_edges.
  apply elem_of_call_edges in He as (_ & _ & s & Hs & Hcls).
  apply elem_of_walk in Hs. by apply (Hnone file tree s _ _ Hf Hp Hs) in Hcls.
Qed.

(** X19.  A file that cannot be read or parsed is passed over: the analysis is
    that of the remaining files. *)
Theorem fallback_skips_unparsable_files (files : list string) :
  analyze_python_file_structure read_file ast_parse files =
  analyze_python_file_structure read_file ast_parse
    (filter (fun file => is_Some (read_file file ≫= ast_parse)) files).
Proof.
  unfold analyze_python_file_structure. f_equal.
  generalize initial. induction files as [|file files IH]; intros st; [done|].
  rewrite filter_cons. case_decide as Hp.
  - simpl. apply IH.
  - simpl. rewrite analyze_file_failed; [apply IH|].
    destruct (read_file file ≫= ast_parse); [|done]. exfalso. apply Hp. eauto.
Qed.

End FallbackProperties.

Section FallbackOutputs.

Import Fallback.

Variable read_file : string → option string.
Variable ast_parse : string → option AST.

Lemma map_name_nil (l : list function_def) : map name l ≠ [] ↔ l ≠ [].
Proof. by destruct l. Qed.

Lemma function_graphs_fold (files : list string) :
  function_graphs (fold_left (analyze_file read_file ast_parse) files initial)
  = function_outputs read_file ast_parse files.
Proof.
  induction files as [|file files IH] using rev_ind; [done|].
  rewrite fold_analyze_file_snoc. unfold function_outputs in *.
  rewrite flat_map_app. simpl. rewrite app_nil_r.
  destruct (read_file file ≫= ast_parse) as [tree|] eqn:Hp.
  - destruct (analyze_file_parsed read_file ast_parse
                (fold_left (analyze_file read_file ast_parse) files initial)
                file tree Hp) as (fg & cg & Hf & _).
    rewrite Hf, IH. f_equal.
    destruct (function_defs (walk tree)); done.
  - rewrite analyze_file_failed by done. by rewrite IH, app_nil_r.
Qed.

Lemma class_graphs_fold (files : list string) :
  class_graphs (fold_left (analyze_file read_file ast_parse) files initial)
  = class_outputs read_file ast_parse files.
Proof.
  induction files as [|file files IH] using rev_ind; [done|].
  rewrite fold_analyze_file_snoc. unfold class_outputs in *.
  rewrite flat_map_app. simpl. rewrite app_nil_r.
  destruct (read_file file ≫= ast_parse) as [tree|] eqn:Hp.
  - destruct (analyze_file_parsed read_file ast_parse
                (fold_left (analyze_file read_file ast_parse) files initial)
                file tree Hp) as (fg & cg & _ & Hc & _).
    by rewrite Hc, IH.
  - rewrite analyze_file_failed by done. by rewrite IH, app_nil_r.
Qed.

Lemma function_outputs_not_nil (files : list string) :
  function_outputs read_file ast_parse files ≠ [] ↔
  ∃ file tree,
    file ∈ files ∧ read_file file ≫= ast_parse = Some tree ∧
    function_defs (walk tree) ≠ [].
Proof.
  unfold function_outputs. induction files as [|file files IH]; simpl.
  - split; [done|]. by intros (? & ? & ?%elem_of_nil & _).
  - split.
    + intros Hne. destruct (read_file file ≫= ast_parse) as [tree|] eqn:Hp.
      * case_bool_decide as Hd.
        -- exists file, tree. split_and!; [left|done..].
        -- simpl in Hne. apply IH in Hne as (f & t & ? & ? & ?).
           exists f, t. split_and!; [by right|done..].
      * simpl in Hne. apply IH in Hne as (f & t & ? & ? & ?).
        exists f, t. split_and!; [by right|done..].
    + intros (f & t & [->|Hf]%elem_of_cons & Hp & Hd).
      * rewrite Hp, bool_decide_eq_true_2 by done. done.
      * intros [_ Hnil]%app_eq_nil. revert Hnil. apply IH. eauto.
Qed.

Lemma class_graph_fold_node_set (files : list string) (n : string) :
  n ∈ node_set (combined_class_graph
                  (fold_left (analyze_file read_file ast_parse) files initial)) ↔
  ∃ file tree,
    file ∈ files ∧ read_file file ≫= ast_parse = Some tree ∧
    n ∈ class_names (walk tree).
Proof.
  rewrite (fold_union _ (λ st, node_set (combined_class_graph st)) _
             (analyze_file_node_set_classes read_file ast_parse)).
  rewrite elem_of_union, elem_of_union_list.
  assert (Hshare : ∀ file,
    n ∈ node_set (combined_class_graph (analyze_file read_file ast_parse initial file)) ↔
    ∃ tree, read_file file ≫= ast_parse = Some tree ∧ n ∈ class_names (walk tree)).
  { intros file. destruct (read_file file ≫= ast_parse) as [tree|] eqn:Hp.
    - destruct (analyze_file_combined read_file ast_parse initial file tree Hp)
        as (_ & _ & Hc).
      rewrite Hc, add_units_node_set, elem_of_union, elem_of_list_to_set. split.
      + intros [?|Hn]; [eauto|]. unfold node_set in Hn. simpl in Hn.
        rewrite dom_empty_L in Hn. by apply elem_of_empty in Hn.
      + intros (t & [= <-] & ?). by left.
    - rewrite analyze_file_failed by done. unfold node_set. simpl.
      rewrite dom_empty_L. split; [by intros ?%elem_of_empty|]. by intros (? & ? & _). }
  split.
  - intros [Hn|(X & (file & -> & Hf)%list_elem_of_fmap & Hn)].
    + unfold node_set in Hn. simpl in Hn. rewrite dom_empty_L in Hn.
      by apply elem_of_empty in Hn.
    + apply Hshare in Hn as (tree & ? & ?). eauto.
  - intros (file & tree & Hf & Hp & Hn). right. eexists. split.
    + apply list_elem_of_fmap. by exists file.
    + apply Hshare. eauto.
Qed.

Lemma class_outputs_not_nil (files : list string) :
  class_outputs read_file ast_parse files ≠ [] ↔
  ∃ file tree,
    file ∈ files ∧ read_file file ≫= ast_parse = Some tree ∧
    class_names (walk tree) ≠ [].
Proof.
  unfold class_outputs. induction files as [|file files IH]; simpl.
  - split; [done|]. by intros (? & ? & ?%elem_of_nil & _).
  - split.
    + intros Hne. destruct (read_file file ≫= ast_parse) as [tree|] eqn:Hp.
      * case_bool_decide as Hd.
        -- exists file, tree. split_and!; [left|done..].
        -- simpl in Hne. apply IH in Hne as (f & t & ? & ? & ?).
           exists f, t. split_and!; [by right|done..].
      * simpl in Hne. apply IH in Hne as (f & t & ? & ? & ?).
        exists f, t. split_and!; [by right|done..].
    + intros (f & t & [->|Hf]%elem_of_cons & Hp & Hd).
      * rewrite Hp, bool_decide_eq_true_2 by done. done.
      * intros [_ Hnil]%app_eq_nil. revert Hnil. apply IH. eauto.
Qed.

Lemma nodes_not_empty (G : DiGraph) : nodes G ≠ ∅ ↔ ∃ n, n ∈ node_set G.
Proof.
  unfold node_set. split.
  - intros Hne. apply map_choose in Hne as (n & a & Hn). exists n.
    apply elem_of_dom. eauto.
  - intros [n Hn] Hnil. rewrite Hnil, dom_empty_L in Hn. by apply elem_of_empty in Hn.
Qed.

Lemma list_not_nil_elem {A} (l : list A) : l ≠ [] ↔ ∃ x, x ∈ l.
Proof.
  destruct l as [|x l]; split; try done.
  - by intros [? ?%elem_of_nil].
  - intros _. exists x. left.
Qed.

(** X20.  The lists returned name, in the order of the files, one output per
    file that could be parsed and defines a function (a class), and then
    the combined output, which is there exactly when one of the others
    is. *)
Theorem fallback_return_value (files : list string) :
  function_graphs (analyze_python_file_structure read_file ast_parse files) =
    function_outputs read_file ast_parse files
    ++ (if bool_decide (function_outputs read_file ast_parse files ≠ [])
        then [output_path "combined_function.html"] else []) ∧
  class_graphs (analyze_python_file_structure read_file ast_parse files) =
    class_outputs read_file ast_parse files
    ++ (if bool_decide (class_outputs read_file ast_parse files ≠ [])
        then [output_path "combined_class.html"] else []).
Proof.
  unfold analyze_python_file_structure, save_combined. simpl.
  rewrite function_graphs_fold, class_graphs_fold.
  assert (Hf : nodes (combined_function_graph
                  (fold_left (analyze_file read_file ast_parse) files initial)) ≠ ∅
               ↔ function_outputs read_file ast_parse files ≠ []).
  { rewrite nodes_not_empty, function_outputs_not_nil. split.
    - intros [n (file & tree & Hf & Hp & Hn)%combined_function_graph_node_set].
      exists file, tree. split_and!; [done..|]. intros Hnil. rewrite Hnil in Hn.
      by apply elem_of_nil in Hn.
    - intros (file & tree & Hf & Hp & Hd).
      apply map_name_nil, list_not_nil_elem in Hd as [n Hn]. exists n.
      apply combined_function_graph_node_set. eauto. }
  assert (Hc : nodes (combined_class_graph
                  (fold_left (analyze_file read_file ast_parse) files initial)) ≠ ∅
               ↔ class_outputs read_file ast_parse files ≠ []).
  { rewrite nodes_not_empty, class_outputs_not_nil. split.
    - intros [n (file & tree & Hf' & Hp & Hn)%class_graph_fold_node_set].
      exists file, tree. split_and!; [done..|]. intros Hnil. rewrite Hnil in Hn.
      by apply elem_of_nil in Hn.
    - intros (file & tree & Hf' & Hp & Hd).
      apply list_not_nil_elem in Hd as [n Hn]. exists n.
      apply class_graph_fold_node_set. eauto. }
  by rewrite (bool_decide_ext _ _ Hf), (bool_decide_ext _ _ Hc).
Qed.

Lemma rendered_analyze_file_mono st file x :
  x ∈ rendered st → x ∈ rendered (analyze_file read_file ast_parse st file).
Proof.
  intros Hx. destruct (read_file file ≫= ast_parse) as [tree|] eqn:Hp.
  - destruct (analyze_file_parsed read_file ast_parse st file tree Hp)
      as (fg & cg & _ & _ & Hr & _).
    rewrite Hr. apply elem_of_app. by left.
  - by rewrite analyze_file_failed.
Qed.

(** X21.  Each file that defines a function gets a graph of its own, rendered
    under the file's name.  Its nodes are the functions of the file, each
    with the file as group, and it lies inside the combined graph: the
    per-file graphs keep the grouping that the combined graph overwrites. *)
Theorem per_file_function_graph (files : list string) (file : string) (tree : AST) :
  file ∈ files →
  read_file file ≫= ast_parse = Some tree →
  function_defs (walk tree) ≠ [] →
  let result := analyze_python_file_structure read_file ast_parse files in
  let fn := Py.basename file in
  ∃ G,
    (G, output_path (Py.replace fn ".py" "" +:+ "_function.html"),
        "Function Call Graph: " +:+ fn) ∈ rendered result ∧
    node_set G = list_to_set (map name (function_defs (walk tree))) ∧
    (∀ n, n ∈ node_set G →
       node_attr G n "label" = Some n ∧
       node_attr G n "title" = Some (fn +:+ ":" +:+ n) ∧
       node_attr G n "group" = Some fn) ∧
    node_set G ⊆ node_set (combined_function_graph result) ∧
    edges G ⊆ edges (combined_function_graph result).
Proof.
  intros Hfile Hp Hd. simpl.
  unfold analyze_python_file_structure, save_combined. simpl.
  assert (Hentry : ∃ G,
    (G, output_path (Py.replace (Py.basename file) ".py" "" +:+ "_function.html"),
        "Function Call Graph: " +:+ Py.basename file)
      ∈ rendered (fold_left (analyze_file read_file ast_parse) files initial) ∧
    nodes G = nodes (fold_left (λ g u, add_node u (unit_attrs (Py.basename file) u) g)
                       (map name (function_defs (walk tree))) empty_graph) ∧
    edges G = call_edges (map name (function_defs (walk tree))) (walk tree)).
  { revert file tree Hfile Hp Hd.
    induction files as [|f fs IH] using rev_ind; intros file tree Hfile Hp Hd.
    - by apply elem_of_nil in Hfile.
    - rewrite fold_analyze_file_snoc.
      apply elem_of_app in Hfile as [Hfile|Hfile%list_elem_of_singleton].
      + destruct (IH file tree Hfile Hp Hd) as (G & HG & ?).
        exists G. split; [|done]. by apply rendered_analyze_file_mono.
      + subst f.
        destruct (analyze_file_parsed read_file ast_parse
                    (fold_left (analyze_file read_file ast_parse) fs initial)
                    file tree Hp) as (fg & cg & _ & _ & Hr & Hn & He & _).
        exists fg. split_and!; [|done..]. rewrite Hr.
        rewrite (bool_decide_eq_true_2 (map name (function_defs (walk tree)) ≠ []))
          by by apply map_name_nil.
        rewrite !elem_of_app, list_elem_of_singleton. auto. }
  destruct Hentry as (G & HG & Hn & He).
  exists G. split_and!.
  - rewrite !elem_of_app. auto.
  - unfold node_set. rewrite Hn.
    fold (node_set (fold_left (λ g u, add_node u (unit_attrs (Py.basename file) u) g)
      (map name (function_defs (walk tree))) empty_graph)).
    rewrite add_units_node_set. unfold node_set. simpl. rewrite dom_empty_L. set_solver.
  - intros n Hin. unfold node_attr. rewrite Hn.
    assert (Hmem : n ∈ map name (function_defs (walk tree))).
    { unfold node_set in Hin. rewrite Hn in Hin.
      fold (node_set (fold_left (λ g u, add_node u (unit_attrs (Py.basename file) u) g)
        (map name (function_defs (walk tree))) empty_graph)) in Hin.
      rewrite add_units_node_set in Hin. unfold node_set in Hin. simpl in Hin.
      rewrite dom_empty_L in Hin. set_solver. }
    split_and!; by apply add_units_attr.
  - intros n Hin. apply combined_function_graph_node_set. exists file, tree.
    split_and!; [done..|]. unfold node_set in Hin. rewrite Hn in Hin.
    fold (node_set (fold_left (λ g u, add_node u (unit_attrs (Py.basename file) u) g)
      (map name (function_defs (walk tree))) empty_graph)) in Hin.
    rewrite add_units_node_set in Hin. unfold node_set in Hin. simpl in Hin.
    rewrite dom_empty_L in Hin. set_solver.
  - intros e Hin. apply fallback_function_edges. exists file, tree.
    split_and!; [done..|]. by rewrite <- He.
Qed.

End FallbackOutputs.

(** ** The fallback properties on concrete files *)

Lemma fallback_edge_needs_parent_func_witness :
  ∃ file tree s,
    file ∈ [MoreExamples.file_c] ∧
    MoreExamples.read_file file ≫= MoreExamples.parse_annotated = Some tree ∧
    subnode s tree ∧ node_cls s = Call (Some "g") (Some "f") ∧
    "f" ∈ map name (function_defs (walk tree)) ∧
    "g" ∈ map name (function_defs (walk tree)).
Proof.
  apply (fallback_edge_needs_parent_func MoreExamples.read_file
           MoreExamples.parse_annotated [MoreExamples.file_c] "f" "g").
  by_evaluation.
Defined.

Lemma fallback_infers_no_edge_without_parent_func_witness :
  edges (Fallback.combined_function_graph
           (Fallback.analyze_python_file_structure MoreExamples.read_file
              MoreExamples.parse_plain [MoreExamples.file_c])) = ∅.
Proof.
  apply (fallback_infers_no_edge_without_parent_func MoreExamples.read_file
           MoreExamples.parse_plain [MoreExamples.file_c]).
  intros file tree s id p Hfile Hp Hs.
  apply list_elem_of_singleton in Hfile as ->.
  injection Hp as <-. apply elem_of_walk in Hs.
  vm_compute in Hs.
  repeat (apply elem_of_cons in Hs as [->|Hs]; [discriminate|]).
  by apply elem_of_nil in Hs.
Defined.

Lemma per_file_function_graph_witness :
  let result := Fallback.analyze_python_file_structure Examples.read_file
                  Examples.ast_parse [Examples.file_a; Examples.file_b] in
  let fn := Py.basename Examples.file_a in
  ∃ G,
    (G, Fallback.output_path (Py.replace fn ".py" "" +:+ "_function.html"),
        "Function Call Graph: " +:+ fn) ∈ Fallback.rendered result ∧
    node_set G = list_to_set (map name (function_defs (walk Examples.tree_a))) ∧
    (∀ n, n ∈ node_set G →
       node_attr G n "label" = Some n ∧
       node_attr G n "title" = Some (fn +:+ ":" +:+ n) ∧
       node_attr G n "group" = Some fn) ∧
    node_set G ⊆ node_set (Fallback.combined_function_graph result) ∧
    edges G ⊆ edges (Fallback.combined_function_graph result).
Proof.
  apply (per_file_function_graph Examples.read_file Examples.ast_parse
           [Examples.file_a; Examples.file_b] Examples.file_a Examples.tree_a).
  - left.
  - reflexivity.
  - vm_compute. discriminate.
Defined.

(** With the annotation, the edge is there. *)
Example annotated_call_gives_an_edge :
  edges (Fallback.combined_function_graph
           (Fallback.analyze_python_file_structure MoreExamples.read_file
              MoreExamples.parse_annotated [MoreExamples.file_c]))
  = {[ ("f", "g") ]}.
Proof. vm_compute. reflexivity. Qed.

(** ** Composition *)

(** X6.  The function-level graph of a mapping given in two parts has the nodes
    and the edges of the graphs of the parts, and nothing else. *)
Theorem function_graph_of_concatenation
    (repo_dir : string) (data1 data2 : list (string * list string)) :
  node_set (extract_function_calls repo_dir (data1 ++ data2)) =
    node_set (extract_function_calls repo_dir data1)
    ∪ node_set (extract_function_calls repo_dir data2) ∧
  edges (extract_function_calls repo_dir (data1 ++ data2)) =
    edges (extract_function_calls repo_dir data1)
    ∪ edges (extract_function_calls repo_dir data2).
Proof.
  split; apply set_eq; intros x; rewrite elem_of_union.
  - rewrite !extract_function_calls_node_set. split.
    + intros [Hx [[calls Hc]|(func & calls & Hc & ?)]];
        apply elem_of_app in Hc as [Hc|Hc]; [left|right|left|right];
        (split; [done|]); eauto 10.
    + intros [[Hx [[calls Hc]|(func & calls & Hc & ?)]]
             |[Hx [[calls Hc]|(func & calls & Hc & ?)]]];
        (split; [done|]); [left|right|left|right];
        repeat eexists; try (apply elem_of_app; eauto); tauto.
  - rewrite !extract_function_calls_edges. split.
    + intros (func & calls & call & Hc & ?).
      apply elem_of_app in Hc as [Hc|Hc]; [left|right]; eauto 10.
    + intros [(func & calls & call & Hc & ?)|(func & calls & call & Hc & ?)];
        exists func, calls, call; (split; [apply elem_of_app; auto|done]).
Qed.

Section LastFileWins.

Import Fallback.

Variable read_file : string → option string.
Variable ast_parse : string → option AST.

(** X22.  In the combined function graph a name carries the title and the group
    of the last file of the list that defines it. *)
Theorem combined_metadata_of_last_definer
    (before after : list string) (file : string) (tree : AST) (n : string) :
  read_file file ≫= ast_parse = Some tree →
  n ∈ map name (function_defs (walk tree)) →
  (∀ f t, f ∈ after → read_file f ≫= ast_parse = Some t →
          n ∉ map name (function_defs (walk t))) →
  let G := combined_function_graph
             (analyze_python_file_structure read_file ast_parse
                (before ++ file :: after)) in
  node_attr G n "label" = Some n ∧
  node_attr G n "title" = Some (Py.basename file +:+ ":" +:+ n) ∧
  node_attr G n "group" = Some (Py.basename file).
Proof.
  intros Hp Hn Hafter. simpl.
  unfold analyze_python_file_structure, save_combined. simpl.
  induction after as [|f after IH] using rev_ind.
  - rewrite (fold_analyze_file_snoc read_file ast_parse before file).
    destruct (combined_function_graph_after_file read_file ast_parse
                (fold_left (analyze_file read_file ast_parse) before initial)
                file tree n Hp) as [Hin _].
    by apply Hin.
  - replace (before ++ file :: after ++ [f]) with ((before ++ file :: after) ++ [f])
      by by rewrite <- app_assoc.
    rewrite fold_analyze_file_snoc.
    assert (IH' := IH (λ g t Hg, Hafter g t (proj2 (elem_of_app _ _ _) (or_introl Hg)))).
    destruct (read_file f ≫= ast_parse) as [t|] eqn:Hf.
    + destruct (combined_function_graph_after_file read_file ast_parse
                  (fold_left (analyze_file read_file ast_parse)
                     (before ++ file :: after) initial) f t n Hf) as [_ Hout].
      unfold node_attr in *. rewrite Hout; [done|].
      apply (Hafter f t); [|done]. apply elem_of_app. right. left.
    + by rewrite analyze_file_failed.
Qed.

End LastFileWins.

Lemma combined_metadata_of_last_definer_witness :
  let G := Fallback.combined_function_graph
             (Fallback.analyze_python_file_structure Examples.read_file
                Examples.ast_parse ([Examples.file_b] ++ Examples.file_a :: ["/repo/none.py"])) in
  node_attr G "foo" "label" = Some "foo" ∧
  node_attr G "foo" "title" = Some (Py.basename Examples.file_a +:+ ":" +:+ "foo") ∧
  node_attr G "foo" "group" = Some (Py.basename Examples.file_a).
Proof.
  apply (combined_metadata_of_last_definer Examples.read_file Examples.ast_parse
           [Examples.file_b] ["/repo/none.py"] Examples.file_a Examples.tree_a "foo").
  - reflexivity.
  - simpl. left.
  - intros f t Hf%list_elem_of_singleton Ht. subst f. discriminate Ht.
Defined.

(** * The source text of a row and the line breaks of the file *)

Section SourceTextOfFile.

Import Extract.

Variable ast_parse : string → option AST.

(** C7, amended.  A definition at any depth of the tree, nested ones
    included, whose span [lineno .. end_lineno] lies inside the file gets
    a row of its own.  The source text of the row is the file's lines
    [lineno] through [end_lineno], each with its line break (CR LF, CR or
    LF) turned into a line feed and otherwise as stored; it has
    [end_lineno - lineno + 1] lines, and it is those lines verbatim when
    the file has no CR. *)
Theorem source_text_is_the_translated_span
    (file_content : string) (tree : AST) (d : function_def) (children : list AST) :
  ast_parse (universal_newlines file_content) = Some tree →
  subnode (Node (FunctionDef d) children) tree →
  (1 ≤ lineno d)%Z → (lineno d ≤ end_lineno d)%Z →
  (end_lineno d ≤ Z.of_nat (length (raw_lines file_content)))%Z →
  let span :=
    take (Z.to_nat (end_lineno d - lineno d + 1))
         (drop (Z.to_nat (lineno d - 1)) (raw_lines file_content)) in
  let text := Py.join "" (map universal_newlines span) in
  ∃ out,
    extract_functions_of_file ast_parse file_content = Some out ∧
    [function_signature d; text] ∈ csv_rows out ∧
    readlines text = map universal_newlines span ∧
    Z.of_nat (length span) = (end_lineno d - lineno d + 1)%Z ∧
    (contains carriage_return file_content = false → text = Py.join "" span).
Proof.
  intros Hp Hsub Ha Hab Hb span text.
  assert (Hlen : length (readlines (universal_newlines file_content))
                 = length (raw_lines file_content)).
  { by rewrite readlines_universal_newlines, length_map. }
  assert (Hspan : take (Z.to_nat (end_lineno d - lineno d + 1))
                    (drop (Z.to_nat (lineno d - 1))
                       (readlines (universal_newlines file_content)))
                  = map universal_newlines span).
  { rewrite readlines_universal_newlines. unfold span.
    change map with (@fmap list _). by rewrite fmap_take, fmap_drop. }
  destruct (source_text_is_the_span ast_parse (universal_newlines file_content)
              tree d children Hp Hsub Ha Hab) as (out & Hout & Hrow & Hread & Hcount).
  { by rewrite Hlen. }
  rewrite Hspan in Hrow, Hread, Hcount.
  exists out. split_and!; try done.
  - rewrite length_map in Hcount. done.
  - intros Hcr. unfold text, span. f_equal.
    change map with (@fmap list _). rewrite fmap_take, fmap_drop.
    change (@fmap list _) with map.
    by rewrite map_universal_newlines_without_cr.
Qed.

End SourceTextOfFile.

Lemma source_text_is_the_translated_span_witness :
  let span := take 2 (drop 0 (raw_lines CrlfExample.file_content)) in
  let text := Py.join "" (map Extract.universal_newlines span) in
  ∃ out,
    Extract.extract_functions_of_file (fun _ => Some CrlfExample.tree)
      CrlfExample.file_content = Some out ∧
    [Extract.function_signature CrlfExample.def_f; text] ∈ Extract.csv_rows out ∧
    Extract.readlines text = map Extract.universal_newlines span ∧
    Z.of_nat (length span) = 2%Z ∧
    (contains Extract.carriage_return CrlfExample.file_content = false →
     text = Py.join "" span).
Proof.
  apply (source_text_is_the_translated_span (fun _ => Some CrlfExample.tree)
           CrlfExample.file_content CrlfExample.tree CrlfExample.def_f
           [Examples.leaf; Examples.leaf]).
  - reflexivity.
  - eapply subnode_below; [|apply subnode_here]. simpl. left.
  - simpl. lia.
  - simpl. lia.
  - vm_compute. discriminate.
Defined.

(** C7, as the specification states it, fails on a file with CR LF line
    breaks: the row written for [f] holds its two lines ending in a line
    feed, which is not lines 1 through 2 of the file with their original
    line breaks. *)
Lemma source_text_not_verbatim_on_crlf :
  let lf := Examples.nl in
  (Extract.csv_rows <$>
     Extract.extract_functions_of_file (fun _ => Some CrlfExample.tree)
       CrlfExample.file_content)
  = Some [Extract.header; ["f()"; "def f():" +:+ lf +:+ "    pass" +:+ lf]] ∧
  Py.join "" (take 2 (drop 0 (raw_lines CrlfExample.file_content)))
  = "def f():" +:+ CrlfExample.crlf +:+ "    pass" +:+ CrlfExample.crlf ∧
  "def f():" +:+ lf +:+ "    pass" +:+ lf
  ≠ Py.join "" (take 2 (drop 0 (raw_lines CrlfExample.file_content))).
Proof.
  split_and!; [vm_compute; reflexivity..|]. vm_compute. discriminate.
Qed.
